(** * The vibrator service's native bridge: retry dispatcher and effect routing

    A shallow embedding of [services/core/jni/com_android_server_VibratorService.cpp]:
    the [halCall] template (function-local static handle, availability flag,
    bounded retry with reconnection) and the seven native methods built on it.

    The HAL service, the service manager and the log are outside the file.
    They are modelled as a world the code threads through, and every run
    returns, next to its result, the list of events it produced (service
    look-ups, attempts against the handle, log lines). *)

From Stdlib Require Import ZArith List Bool Lia.
Import ListNotations.
Open Scope Z_scope.

(** ** Integer conversions of the source *)

(** [static_cast<uint32_t>(x)]. *)
Definition to_uint32 (z : Z) : Z := z mod 2 ^ 32.

(** Conversion to [uint8_t]. *)
Definition to_uint8 (z : Z) : Z := z mod 2 ^ 8.

(** [static_cast<int32_t>(x)], used for the identifiers printed in the log. *)
Definition to_int32 (z : Z) : Z := (z + 2 ^ 31) mod 2 ^ 32 - 2 ^ 31.

(** ** Types of the HAL interface *)

(** [android::hardware::vibrator::V1_0::Status].  The source names three
    enumerators; [OTHER_STATUS] stands for every other value a variable of
    that type can hold. *)
Inductive Status : Type :=
| OK
| UNKNOWN_ERROR
| UNSUPPORTED_OPERATION
| OTHER_STATUS (raw : Z).

Definition Status_eqb (a b : Status) : bool :=
  match a, b with
  | OK, OK => true
  | UNKNOWN_ERROR, UNKNOWN_ERROR => true
  | UNSUPPORTED_OPERATION, UNSUPPORTED_OPERATION => true
  | OTHER_STATUS x, OTHER_STATUS y => Z.eqb x y
  | _, _ => false
  end.

(** The two interface versions [halCall] is instantiated at (template
    parameter [I]). *)
Inductive Iface : Type :=
| IVibrator        (* V1_0::IVibrator *)
| IVibrator_1_1.   (* V1_1::IVibrator *)

(** A live proxy object, as returned behind [sp<I>]; [None] is [nullptr]. *)
Definition Handle : Type := nat.

(** A call through a member-function pointer together with the arguments
    forwarded to it.  The index is what a completed call hands back: the value
    inside [Return<R>], and for [perform]/[perform_1_1] the two arguments the
    callback is invoked with.  The arguments are the values the member
    function receives: [halCall] forwards its arguments to a call through
    [fn], which converts each to the parameter type the interface declares
    (the [Args0] of [inst_of] below). *)
Inductive Call : Type -> Type :=
| ping : Call unit
| on (timeout_ms : Z) : Call Status
| off : Call Status
| supportsAmplitudeControl : Call bool
| setAmplitude (amplitude : Z) : Call Status
| perform (effect : Z) (strength : Z) : Call (Status * Z)
| perform_1_1 (effect : Z) (strength : Z) : Call (Status * Z).

(** The same without the index, for the event log. *)
Inductive CallDesc : Type :=
| D_ping
| D_on (timeout_ms : Z)
| D_off
| D_supportsAmplitudeControl
| D_setAmplitude (amplitude : Z)
| D_perform (effect : Z) (strength : Z)
| D_perform_1_1 (effect : Z) (strength : Z).

Definition desc {R : Type} (fn : Call R) : CallDesc :=
  match fn with
  | ping => D_ping
  | on t => D_on t
  | off => D_off
  | supportsAmplitudeControl => D_supportsAmplitudeControl
  | setAmplitude a => D_setAmplitude a
  | perform e s => D_perform e s
  | perform_1_1 e s => D_perform_1_1 e s
  end.

(** What a completed call carried, without the index. *)
Inductive ReplyDesc : Type :=
| R_void
| R_status (s : Status)
| R_bool (b : bool)
| R_perform (s : Status) (lengthMs : Z).

Definition reply_desc {R : Type} (fn : Call R) : R -> ReplyDesc :=
  match fn in Call T return T -> ReplyDesc with
  | ping => fun _ => R_void
  | on _ => R_status
  | off => R_status
  | supportsAmplitudeControl => R_bool
  | setAmplitude _ => R_status
  | perform _ _ => fun p => R_perform (fst p) (snd p)
  | perform_1_1 _ _ => fun p => R_perform (fst p) (snd p)
  end.

Definition iface_of {R : Type} (fn : Call R) : Iface :=
  match fn with
  | perform_1_1 _ _ => IVibrator_1_1
  | _ => IVibrator
  end.

(** ** Template instantiations of [halCall]

    [halCall] is a function template over [<R, I, Args0..., Args1...>]; its two
    [static] locals exist once per instantiation.  [R] and [Args0] are read off
    the member function the call site names, [Args1] off the value category
    and type of the forwarded arguments. *)
Inductive CType : Type :=
| T_void | T_bool | T_Status
| T_uint8_t | T_uint32_t | T_jlong_ref
| T_Effect | T_Effect_1_1
| T_EffectStrength | T_EffectStrength_ref
| T_perform_cb | T_lambda_ref.

Record Inst : Type := mkInst
  { tR : CType; tI : Iface; tArgs0 : list CType; tArgs1 : list CType }.

Definition CType_eq_dec (a b : CType) : {a = b} + {a <> b}.
Proof. decide equality. Defined.

Definition Iface_eq_dec (a b : Iface) : {a = b} + {a <> b}.
Proof. decide equality. Defined.

Definition Inst_eq_dec (a b : Inst) : {a = b} + {a <> b}.
Proof.
  decide equality; try apply (list_eq_dec CType_eq_dec);
    try apply Iface_eq_dec; apply CType_eq_dec.
Defined.

Definition inst_of {R : Type} (fn : Call R) : Inst :=
  match fn with
  | ping => mkInst T_void IVibrator [] []
  | on _ => mkInst T_Status IVibrator [T_uint32_t] [T_jlong_ref]
  | off => mkInst T_Status IVibrator [] []
  | supportsAmplitudeControl => mkInst T_bool IVibrator [] []
  | setAmplitude _ => mkInst T_Status IVibrator [T_uint8_t] [T_uint32_t]
  | perform _ _ =>
      mkInst T_void IVibrator
        [T_Effect; T_EffectStrength; T_perform_cb]
        [T_Effect; T_EffectStrength_ref; T_lambda_ref]
  | perform_1_1 _ _ =>
      mkInst T_void IVibrator_1_1
        [T_Effect_1_1; T_EffectStrength; T_perform_cb]
        [T_Effect_1_1; T_EffectStrength_ref; T_lambda_ref]
  end.

(** ** [Return<R>] *)

Inductive ExceptionCode : Type :=
| EX_NONE
| EX_NULL_POINTER
| EX_TRANSACTION_FAILED.

(** Either a value (status [EX_NONE]) or a bare status, as built by
    [Return<R>{Status::fromExceptionCode(..)}]. *)
Inductive Return (R : Type) : Type :=
| RetVal (v : R)
| RetStatus (ex : ExceptionCode).
Arguments RetVal {R} v.
Arguments RetStatus {R} ex.

Definition isOk {R : Type} (r : Return R) : bool :=
  match r with
  | RetVal _ => true
  | RetStatus EX_NONE => true
  | RetStatus _ => false
  end.

(** [Return<R>::withDefault].  A bare [EX_NONE] status holds no value of the
    call; [halCall] never returns one (see [halCall_ret_changed]). *)
Definition withDefault {R : Type} (d : R) (r : Return R) : R :=
  match r with
  | RetVal v => v
  | RetStatus _ => d
  end.

(** [NullptrStatus<R>()]. *)
Definition NullptrStatus {R : Type} : Return R := RetStatus EX_NULL_POINTER.

Definition NUM_TRIES : nat := 2.

(** ** The world outside the file *)

(** What the included HAL headers and the running system provide: the
    enumerator [Effect_1_1::TICK], the conversion [static_cast<EffectStrength>],
    the two service look-ups of an interface, and a call on a live handle
    ([None]: the call failed in transport, the callback was not run). *)
Class VibratorHal (W : Type) : Type :=
  { Effect_1_1_TICK : Z;
    static_cast_EffectStrength : Z -> Z;
    getService : Iface -> W -> option Handle * W;
    tryGetService : Iface -> W -> option Handle * W;
    transact : forall R : Type, Handle -> Call R -> W -> option R * W }.

(** ** Events *)

Inductive Priority : Type := ANDROID_LOG_WARN | ANDROID_LOG_ERROR.

(** The log lines of the file, by call site. *)
Inductive Diag : Type :=
| FailedToIssueCommand                                (* halCall *)
| VibratorOnFailed (s : Status)
| VibratorOffFailed (s : Status)
| SetAmplitudeFailed (s : Status)
| InvalidEffectId (id : Z)
| InsufficientHalVersion (id : Z)
| PerformFailed (id : Z)
| HapticEffectFailed (effect strength : Z) (s : Status).

(** How one pass through the loop body of [halCall] ended. *)
Inductive Outcome : Type :=
| NullHandle                  (* sHal == nullptr: the service is not contacted *)
| TransportFailed             (* the call was issued and did not complete *)
| Replied (r : ReplyDesc).    (* the call completed *)

Inductive Event : Type :=
| EvGetService (i : Iface) (found : bool)
| EvTryGetService (i : Iface) (found : bool)
| EvAttempt (fn : CallDesc) (o : Outcome)
| EvLog (p : Priority) (d : Diag).

(** ** State *)

(** The two static locals of one instantiation. *)
Record Slot : Type := mkSlot { sHal : option Handle; sAvailable : bool }.

Definition isSome {A : Type} (o : option A) : bool :=
  match o with Some _ => true | None => false end.

Section Bridge.

Context {W : Type} {hal : VibratorHal W}.

(** The world and, per instantiation of [halCall], its static locals; [None]
    until the first call of that instantiation has run their initialisers. *)
Record St : Type := mkSt { world : W; statics : Inst -> option Slot }.

(** A computation: result, state after, events produced. *)
Definition M (A : Type) : Type := St -> A * St * list Event.

Definition mret {A : Type} (a : A) : M A := fun st => (a, st, []).

Definition mbind {A B : Type} (m : M A) (k : A -> M B) : M B :=
  fun st =>
    let '(a, st1, t1) := m st in
    let '(b, st2, t2) := k a st1 in
    (b, st2, t1 ++ t2).

Definition emit (e : Event) : M unit := fun st => (tt, st, [e]).

Definition ALOGW (d : Diag) : M unit := emit (EvLog ANDROID_LOG_WARN d).
Definition ALOGE (d : Diag) : M unit := emit (EvLog ANDROID_LOG_ERROR d).

Notation "x <- m ;; k" := (mbind m (fun x => k))
  (at level 61, m at next level, right associativity).
Notation "m ;;; k" := (mbind m (fun _ => k))
  (at level 61, right associativity).

Definition upd (f : Inst -> option Slot) (i : Inst) (v : option Slot)
  : Inst -> option Slot :=
  fun j => if Inst_eq_dec j i then v else f j.

(** [sHal] of an instantiation, [nullptr] included. *)
Definition get_sHal (f : Inst -> option Slot) (i : Inst) : option Handle :=
  match f i with
  | Some sl => sHal sl
  | None => None
  end.

(** Assignment to [sHal]; [sAvailable] keeps its value. *)
Definition set_sHal (f : Inst -> option Slot) (i : Inst) (h : option Handle)
  : Inst -> option Slot :=
  match f i with
  | Some sl => upd f i (Some (mkSlot h (sAvailable sl)))
  | None => f
  end.

(** ** [halCall] *)

(** The two [static] declarations: run once, at the first call of the
    instantiation.
<<
    static sp<I> sHal = I::getService();
    static bool sAvailable = sHal != nullptr;
>> *)
Definition static_init {R : Type} (fn : Call R) : M Slot :=
  fun st =>
    match statics st (inst_of fn) with
    | Some sl => (sl, st, [])
    | None =>
        let '(h, w) := getService (iface_of fn) (world st) in
        let sl := mkSlot h (isSome h) in
        (sl, mkSt w (upd (statics st) (inst_of fn) (Some sl)),
         [EvGetService (iface_of fn) (isSome h)])
    end.

(** One pass of the loop body up to the assignment to [ret]: a null [sHal]
    gives [NullptrStatus<R>()], otherwise [fn] is called on [sHal] with the
    forwarded arguments. *)
Definition attempt {R : Type} (fn : Call R) : M (Return R) :=
  fun st =>
    match get_sHal (statics st) (inst_of fn) with
    | None => (NullptrStatus, st, [EvAttempt (desc fn) NullHandle])
    | Some h =>
        let '(r, w) := transact R h fn (world st) in
        match r with
        | Some v =>
            (RetVal v, mkSt w (statics st),
             [EvAttempt (desc fn) (Replied (reply_desc fn v))])
        | None =>
            (RetStatus EX_TRANSACTION_FAILED, mkSt w (statics st),
             [EvAttempt (desc fn) TransportFailed])
        end
    end.

(** [sHal = I::tryGetService();] *)
Definition reconnect {R : Type} (fn : Call R) : M unit :=
  fun st =>
    let '(h, w) := tryGetService (iface_of fn) (world st) in
    (tt, mkSt w (set_sHal (statics st) (inst_of fn) h),
     [EvTryGetService (iface_of fn) (isSome h)]).

(** The [for] loop, [n] passes left, [ret] the value assigned so far. *)
Fixpoint tries {R : Type} (n : nat) (fn : Call R) (ret : Return R)
  : M (Return R) :=
  match n with
  | O => mret ret
  | S n' =>
      ret' <- attempt fn ;;
      if isOk ret' then mret ret'
      else
        ALOGE FailedToIssueCommand ;;;
        reconnect fn ;;;
        tries n' fn ret'
  end.

Definition halCall {R : Type} (fn : Call R) : M (Return R) :=
  sl <- static_init fn ;;
  if negb (sAvailable sl) then mret NullptrStatus
  else tries NUM_TRIES fn (RetStatus EX_NONE).

(** ** The native methods *)

Definition vibratorInit : M unit :=
  _ <- halCall ping ;; mret tt.

Definition vibratorExists : M bool :=
  r <- halCall ping ;; mret (if isOk r then true else false).

(** [on] takes a [uint32_t]: the [jlong] is converted at the call. *)
Definition vibratorOn (timeout_ms : Z) : M unit :=
  r <- halCall (on (to_uint32 timeout_ms)) ;;
  let retStatus := withDefault UNKNOWN_ERROR r in
  if negb (Status_eqb retStatus OK) then ALOGE (VibratorOnFailed retStatus)
  else mret tt.

Definition vibratorOff : M unit :=
  r <- halCall off ;;
  let retStatus := withDefault UNKNOWN_ERROR r in
  if negb (Status_eqb retStatus OK) then ALOGE (VibratorOffFailed retStatus)
  else mret tt.

(** Returns [jlong]: the [bool] converted. *)
Definition vibratorSupportsAmplitudeControl : M Z :=
  r <- halCall supportsAmplitudeControl ;;
  mret (Z.b2z (withDefault false r)).

(** [setAmplitude] takes a [uint8_t]: the [uint32_t] the source casts the
    level to is narrowed at the call. *)
Definition vibratorSetAmplitude (amplitude : Z) : M unit :=
  r <- halCall (setAmplitude (to_uint8 (to_uint32 amplitude))) ;;
  let status := withDefault UNKNOWN_ERROR r in
  if negb (Status_eqb status OK) then ALOGE (SetAmplitudeFailed status)
  else mret tt.

(** The locals [status] and [lengthMs] of [vibratorPerformEffect].  They are
    declared without an initialiser and written only by the callback. *)
Record Locals : Type := mkLocals { l_status : Status; l_lengthMs : Z }.

(** The lambda [callback], run by a call that completes. *)
Definition callback (ret : Return (Status * Z)) (l : Locals) : Locals :=
  match ret with
  | RetVal (retStatus, retLengthMs) => mkLocals retStatus retLengthMs
  | RetStatus _ => l
  end.

(** The bound of the range check, [static_cast<uint32_t>(Effect_1_1::TICK)]. *)
Definition MAX_KNOWN_EFFECT : Z := to_uint32 Effect_1_1_TICK.

(** [indeterminate] is what the storage of [status] and [lengthMs] holds when
    the function is entered.  The range check compares the [jlong] with the
    enumerator as [uint32_t], and the two casts of [effect] to the effect
    enumerations are taken at that width.  The callback runs inside the pass
    that completes, which is the last one, so the locals after [halCall] are
    [callback ret] of the locals before it. *)
Definition vibratorPerformEffect (indeterminate : Locals) (effect strength : Z)
  : M Z :=
  let effectStrength := static_cast_EffectStrength strength in
  l <- (if (effect <? 0) || (effect >? MAX_KNOWN_EFFECT) then
          ALOGW (InvalidEffectId (to_int32 effect)) ;;;
          mret indeterminate
        else if effect =? MAX_KNOWN_EFFECT then
          ret <- halCall (perform_1_1 (to_uint32 effect) effectStrength) ;;
          (if negb (isOk ret)
           then ALOGW (InsufficientHalVersion (to_int32 effect))
           else mret tt) ;;;
          mret (callback ret indeterminate)
        else
          ret <- halCall (perform (to_uint32 effect) effectStrength) ;;
          (if negb (isOk ret)
           then ALOGW (PerformFailed (to_int32 effect))
           else mret tt) ;;;
          mret (callback ret indeterminate)) ;;
  if Status_eqb (l_status l) OK then mret (l_lengthMs l)
  else if negb (Status_eqb (l_status l) UNSUPPORTED_OPERATION) then
    ALOGE (HapticEffectFailed effect strength (l_status l)) ;;;
    mret (-1)
  else mret (-1).

End Bridge.

Arguments St W : clear implicits.
Arguments M W A : clear implicits.

(** ** Reading a run *)

(** The passes through the loop body, in order. *)
Fixpoint attempts (tr : list Event) : list (CallDesc * Outcome) :=
  match tr with
  | [] => []
  | EvAttempt fn o :: t => (fn, o) :: attempts t
  | _ :: t => attempts t
  end.

(** [tryGetService] look-ups. *)
Fixpoint reconnections (tr : list Event) : nat :=
  match tr with
  | [] => O
  | EvTryGetService _ _ :: t => S (reconnections t)
  | _ :: t => reconnections t
  end.

(** Log lines written with [ALOGE]. *)
Fixpoint error_diags (tr : list Event) : list Diag :=
  match tr with
  | [] => []
  | EvLog ANDROID_LOG_ERROR d :: t => d :: error_diags t
  | _ :: t => error_diags t
  end.

Definition is_attempt (e : Event) : bool :=
  match e with EvAttempt _ _ => true | _ => false end.

(** The call completed: [ret.isOk()] after the pass. *)
Definition completed (o : Outcome) : bool :=
  match o with Replied _ => true | _ => false end.

(** The service was called during the pass. *)
Definition contacted (o : Outcome) : bool :=
  match o with NullHandle => false | _ => true end.

(** The outcome a returned [Return<R>] stands for; the bare [EX_NONE] status
    is the outcome of no pass. *)
Definition outcome_of {R : Type} (fn : Call R) (r : Return R) : option Outcome :=
  match r with
  | RetVal v => Some (Replied (reply_desc fn v))
  | RetStatus EX_NULL_POINTER => Some NullHandle
  | RetStatus EX_TRANSACTION_FAILED => Some TransportFailed
  | RetStatus EX_NONE => None
  end.

(** Passes that did not complete. *)
Definition failed_passes (tr : list Event) : nat :=
  length (filter (fun a => negb (completed (snd a))) (attempts tr)).

(** The strength argument of a call, when it has one. *)
Definition strength_arg (fn : CallDesc) : option Z :=
  match fn with
  | D_perform _ s => Some s
  | D_perform_1_1 _ s => Some s
  | _ => None
  end.

(** The member function a call names, without its arguments. *)
Inductive Method : Type :=
| M_ping | M_on | M_off | M_supportsAmplitudeControl | M_setAmplitude
| M_perform | M_perform_1_1.

Definition method_of {R : Type} (fn : Call R) : Method :=
  match fn with
  | ping => M_ping
  | on _ => M_on
  | off => M_off
  | supportsAmplitudeControl => M_supportsAmplitudeControl
  | setAmplitude _ => M_setAmplitude
  | perform _ _ => M_perform
  | perform_1_1 _ _ => M_perform_1_1
  end.

(** The next call of [fn]'s instantiation starts with a non-null handle: the
    statics are initialised, available and hold one, or no call has run yet
    and the look-up of the static initialiser finds the service. *)
Definition live {W : Type} {hal : VibratorHal W} {R : Type}
    (fn : Call R) (st : St W) : bool :=
  match statics st (inst_of fn) with
  | Some sl => sAvailable sl && isSome (sHal sl)
  | None => isSome (fst (getService (iface_of fn) (world st)))
  end.

(** The call [vibratorPerformEffect] makes for an identifier in range. *)
Definition entry_point {W : Type} {hal : VibratorHal W}
    (effect strength : Z) : Call (Status * Z) :=
  if effect =? MAX_KNOWN_EFFECT
  then perform_1_1 (to_uint32 effect) (static_cast_EffectStrength strength)
  else perform (to_uint32 effect) (static_cast_EffectStrength strength).

(** The warning after a call that did not complete, by branch. *)
Definition transport_warning {W : Type} {hal : VibratorHal W}
    (effect : Z) (ret : Return (Status * Z)) : list Event :=
  if negb (isOk ret) then
    [EvLog ANDROID_LOG_WARN
       (if effect =? MAX_KNOWN_EFFECT
        then InsufficientHalVersion (to_int32 effect)
        else PerformFailed (to_int32 effect))]
  else [].

(** ** A scripted world, for running the code

    The service manager answers successive look-ups from [registry], the
    service answers successive calls from [wire] ([None]: the call fails in
    transport).  Both answer [None] once the script is used up. *)
Record Script : Type := mkScript
  { registry : list (option Handle); wire : list (option ReplyDesc) }.

Definition decode {R : Type} (fn : Call R) (d : ReplyDesc) : option R :=
  match fn in Call T return option T with
  | ping => match d with R_void => Some tt | _ => None end
  | on _ => match d with R_status s => Some s | _ => None end
  | off => match d with R_status s => Some s | _ => None end
  | supportsAmplitudeControl => match d with R_bool b => Some b | _ => None end
  | setAmplitude _ => match d with R_status s => Some s | _ => None end
  | perform _ _ => match d with R_perform s l => Some (s, l) | _ => None end
  | perform_1_1 _ _ => match d with R_perform s l => Some (s, l) | _ => None end
  end.

Definition script_lookup (_ : Iface) (w : Script) : option Handle * Script :=
  match registry w with
  | [] => (None, w)
  | h :: rest => (h, mkScript rest (wire w))
  end.

Definition script_transact (R : Type) (_ : Handle) (fn : Call R) (w : Script)
  : option R * Script :=
  match wire w with
  | [] => (None, w)
  | r :: rest =>
      (match r with Some d => decode fn d | None => None end,
       mkScript (registry w) rest)
  end.

(** [TICK] follows [CLICK] and [DOUBLE_CLICK]; a strength is kept in eight
    bits. *)
#[export] Instance ScriptHal : VibratorHal Script :=
  {| Effect_1_1_TICK := 2;
     static_cast_EffectStrength := fun z => z mod 2 ^ 8;
     getService := script_lookup;
     tryGetService := script_lookup;
     transact := script_transact |}.

(** No instantiation of [halCall] has run yet. *)
Definition boot {W : Type} (w : W) : St W := mkSt w (fun _ => None).

(** Result, events, and the statics of one instantiation after a run. *)
Definition result {W A : Type} (x : A * St W * list Event) : A := fst (fst x).
Definition events {W A : Type} (x : A * St W * list Event) : list Event := snd x.
Definition after {W A : Type} (x : A * St W * list Event) : St W := snd (fst x).

(** *** Sample worlds *)

(** No service at the first look-up; registered afterwards. *)
Definition w_late : Script :=
  mkScript [None; Some 1%nat; Some 1%nat] [Some R_void; Some R_void].

(** The first call is lost; the service answers the second with
    [UNSUPPORTED_OPERATION]. *)
Definition w_flaky : Script :=
  mkScript [Some 1%nat; Some 2%nat]
           [None; Some (R_perform UNSUPPORTED_OPERATION 0)].

(** The service answers the first call with the given reply. *)
Definition w_steady (d : ReplyDesc) : Script :=
  mkScript [Some 1%nat; Some 2%nat] [Some d].

(** The service is registered and every call to it is lost. *)
Definition w_dead : Script :=
  mkScript [Some 1%nat; Some 2%nat; Some 3%nat] [None; None; None; None].

(** The service answers [setAmplitude]; every later call is lost. *)
Definition w_mixed : Script :=
  mkScript [Some 1%nat; Some 2%nat; Some 3%nat; Some 4%nat]
           [Some (R_status OK); None; None].

(** The service comes back after an outage: found at the start, gone for
    two look-ups, then registered again. *)
Definition w_outage : Script :=
  mkScript [Some 1%nat; None; None; Some 2%nat] [None; Some R_void].

(** The service is registered and answers two pings. *)
Definition w_up : Script :=
  mkScript [Some 1%nat; Some 2%nat] [Some R_void; Some R_void].

(** Runs of the static initialisers: [getService] look-ups. *)
Fixpoint initialisations (tr : list Event) : nat :=
  match tr with
  | [] => O
  | EvGetService _ _ :: t => S (initialisations t)
  | _ :: t => initialisations t
  end.

(** Log lines written with [ALOGW]. *)
Fixpoint warn_diags (tr : list Event) : list Diag :=
  match tr with
  | [] => []
  | EvLog ANDROID_LOG_WARN d :: t => d :: warn_diags t
  | _ :: t => warn_diags t
  end.

(** What [vibratorOn], [vibratorOff] and [vibratorSetAmplitude] log after
    their call: [withDefault(Status::UNKNOWN_ERROR)] of the value returned,
    reported with [ALOGE] unless it is [OK]. *)
Definition status_report (report : Status -> Diag) (r : Return Status)
  : list Event :=
  if Status_eqb (withDefault UNKNOWN_ERROR r) OK then []
  else [EvLog ANDROID_LOG_ERROR (report (withDefault UNKNOWN_ERROR r))].

(** The conditional expression assigned to [ret] in the loop, for a given
    [sHal] and world: the value, the world after, the outcome. *)
Definition pass {W : Type} {hal : VibratorHal W} {R : Type}
    (h : option Handle) (fn : Call R) (w : W) : Return R * W * Outcome :=
  match h with
  | None => (NullptrStatus, w, NullHandle)
  | Some h' =>
      let '(r, w') := transact R h' fn w in
      match r with
      | Some v => (RetVal v, w', Replied (reply_desc fn v))
      | None => (RetStatus EX_TRANSACTION_FAILED, w', TransportFailed)
      end
  end.

(** The handle and the world the loop is entered with: those of initialised
    statics whose flag is true, or those [getService] gives when it runs as
    the initialiser and finds the service.  [None]: the loop is not
    entered. *)
Definition loop_entry {W : Type} {hal : VibratorHal W} {R : Type}
    (fn : Call R) (st : St W) : option (option Handle * W) :=
  match statics st (inst_of fn) with
  | Some sl => if sAvailable sl then Some (sHal sl, world st) else None
  | None =>
      let '(h, w) := getService (iface_of fn) (world st) in
      if isSome h then Some (h, w) else None
  end.

(** *** A world with restarts

    Every look-up hands out the next handle of [r_registry] and makes it the
    only live one.  A call on the live handle is answered from [r_wire]; a
    call on any other handle is lost. *)
Record Restarts : Type := mkRestarts
  { r_registry : list (option Handle);
    r_live : option Handle;
    r_wire : list (option ReplyDesc) }.

Definition restarts_lookup (_ : Iface) (w : Restarts)
  : option Handle * Restarts :=
  match r_registry w with
  | [] => (None, mkRestarts [] None (r_wire w))
  | h :: rest => (h, mkRestarts rest h (r_wire w))
  end.

Definition restarts_transact (R : Type) (h : Handle) (fn : Call R)
    (w : Restarts) : option R * Restarts :=
  match r_live w with
  | Some l =>
      if Nat.eqb l h then
        match r_wire w with
        | [] => (None, w)
        | r :: rest =>
            (match r with Some d => decode fn d | None => None end,
             mkRestarts (r_registry w) (r_live w) rest)
        end
      else (None, w)
  | None => (None, w)
  end.

#[export] Instance RestartsHal : VibratorHal Restarts :=
  {| Effect_1_1_TICK := 2;
     static_cast_EffectStrength := fun z => z mod 2 ^ 8;
     getService := restarts_lookup;
     tryGetService := restarts_lookup;
     transact := restarts_transact |}.

(** The service restarts once: the first call, on handle 1, is lost; a
    look-up then finds handle 2, which answers. *)
Definition w_restart (d : ReplyDesc) : Restarts :=
  mkRestarts [Some 1%nat; Some 2%nat; Some 3%nat] None [None; Some d].

(** The service keeps restarting and every call is lost. *)
Definition w_restarting : Restarts :=
  mkRestarts [Some 1%nat; Some 2%nat; Some 3%nat] None [None; None].

(** ** The runs of the loop

    The events of [halCall] after the static initialisers, with the value
    returned: the instantiation is unavailable; the first pass completes; the
    first pass fails and the second completes; both fail. *)
Inductive loop_run {R : Type} (fn : Call R) : list Event -> Return R -> Prop :=
| run_unavailable :
    loop_run fn [] NullptrStatus
| run_first (v : R) :
    loop_run fn [EvAttempt (desc fn) (Replied (reply_desc fn v))] (RetVal v)
| run_second (o1 : Outcome) (b : bool) (v : R) :
    completed o1 = false ->
    loop_run fn
      [EvAttempt (desc fn) o1;
       EvLog ANDROID_LOG_ERROR FailedToIssueCommand;
       EvTryGetService (iface_of fn) b;
       EvAttempt (desc fn) (Replied (reply_desc fn v))]
      (RetVal v)
| run_exhausted (o1 o2 : Outcome) (b1 b2 : bool) (r : Return R) :
    completed o1 = false ->
    completed o2 = false ->
    outcome_of fn r = Some o2 ->
    isOk r = false ->
    loop_run fn
      [EvAttempt (desc fn) o1;
       EvLog ANDROID_LOG_ERROR FailedToIssueCommand;
       EvTryGetService (iface_of fn) b1;
       EvAttempt (desc fn) o2;
       EvLog ANDROID_LOG_ERROR FailedToIssueCommand;
       EvTryGetService (iface_of fn) b2]
      r.

(** The events of the static initialisers: none, or one [getService]. *)
Definition init_events {R : Type} (fn : Call R) (tr : list Event) : Prop :=
  tr = [] \/ exists b, tr = [EvGetService (iface_of fn) b].

(** What the closing [if] chain of [vibratorPerformEffect] returns and logs
    for given contents of [status] and [lengthMs]. *)
Definition verdict (l : Locals) : Z :=
  if Status_eqb (l_status l) OK then l_lengthMs l else -1.

Definition verdict_log (effect strength : Z) (l : Locals) : list Event :=
  if Status_eqb (l_status l) OK then []
  else if negb (Status_eqb (l_status l) UNSUPPORTED_OPERATION) then
    [EvLog ANDROID_LOG_ERROR (HapticEffectFailed effect strength (l_status l))]
  else [].

(** Splits [H : l = pre ++ a :: ...] for a list [l] given by its elements. *)
Ltac split_app H :=
  repeat (match type of H with
          | _ = ?p ++ _ => is_var p; destruct p; cbn [app] in H
          | [] = _ :: _ => discriminate H
          | _ :: _ = [] => discriminate H
          | _ :: _ = _ :: _ =>
              let E := fresh "E" in
              first [injection H as E H | injection H as E]; try subst
          end).

(** ** Properties of the dispatcher *)

Section Dispatcher.

Context {W : Type} {hal : VibratorHal W}.

Lemma attempt_outcome {R : Type} (fn : Call R) (st : St W) :
  exists o,
    events (attempt fn st) = [EvAttempt (desc fn) o] /\
    outcome_of fn (result (attempt fn st)) = Some o /\
    isOk (result (attempt fn st)) = completed o /\
    (forall j, statics (after (attempt fn st)) j = statics st j) /\
    (contacted o = isSome (get_sHal (statics st) (inst_of fn))) /\
    (completed o = true ->
     exists v, result (attempt fn st) = RetVal v /\
               o = Replied (reply_desc fn v)).
Proof.
  unfold attempt.
  destruct (get_sHal (statics st) (inst_of fn)) as [h|].
  - destruct (transact R h fn (world st)) as [[v|] w].
    + exists (Replied (reply_desc fn v)); cbn; repeat split; eauto.
    + exists TransportFailed; cbn; repeat split; auto; discriminate.
  - exists NullHandle; cbn; repeat split; auto; discriminate.
Qed.

Lemma reconnect_events {R : Type} (fn : Call R) (st : St W) :
  exists b, events (reconnect fn st) = [EvTryGetService (iface_of fn) b].
Proof.
  unfold reconnect.
  destruct (tryGetService (iface_of fn) (world st)) as [h w].
  exists (isSome h); reflexivity.
Qed.

Lemma upd_other (f : Inst -> option Slot) (i j : Inst) (v : option Slot) :
  j <> i -> upd f i v j = f j.
Proof.
  intros Hne; unfold upd; destruct (Inst_eq_dec j i); congruence.
Qed.

Lemma upd_same (f : Inst -> option Slot) (i : Inst) (v : option Slot) :
  upd f i v i = v.
Proof.
  unfold upd; destruct (Inst_eq_dec i i); congruence.
Qed.

Lemma set_sHal_other (f : Inst -> option Slot) (i j : Inst) (h : option Handle) :
  j <> i -> set_sHal f i h j = f j.
Proof.
  intros Hne; unfold set_sHal.
  destruct (f i); auto using upd_other.
Qed.

Lemma set_sHal_available (f : Inst -> option Slot) (i : Inst) (h : option Handle) :
  option_map sAvailable (set_sHal f i h i) = option_map sAvailable (f i).
Proof.
  unfold set_sHal.
  destruct (f i) as [sl|] eqn:E; [rewrite upd_same; reflexivity|].
  rewrite E; reflexivity.
Qed.

Lemma reconnect_other {R : Type} (fn : Call R) (st : St W) (j : Inst) :
  j <> inst_of fn -> statics (after (reconnect fn st)) j = statics st j.
Proof.
  intros Hne; unfold reconnect.
  destruct (tryGetService (iface_of fn) (world st)) as [h w]; cbn.
  now apply set_sHal_other.
Qed.

(** The loop alone: one of the three runs that make at least one pass. *)
Lemma tries_run {R : Type} (fn : Call R) (st : St W) :
  loop_run fn (events (tries NUM_TRIES fn (RetStatus EX_NONE) st))
              (result (tries NUM_TRIES fn (RetStatus EX_NONE) st)) /\
  events (tries NUM_TRIES fn (RetStatus EX_NONE) st) <> [].
Proof.
  unfold NUM_TRIES; cbn [tries]; unfold mbind, ALOGE, emit, mret.
  destruct (attempt_outcome fn st) as (o1 & He1 & Ho1 & Hok1 & _ & _ & Hv1).
  destruct (attempt fn st) as [[r1 s1] t1]; cbn in He1, Ho1, Hok1, Hv1; subst t1.
  rewrite Hok1; destruct (completed o1) eqn:Hc1.
  - destruct (Hv1 eq_refl) as (v & -> & ->); cbn.
    split; [constructor | discriminate].
  - destruct (reconnect_events fn s1) as (b1 & Hb1).
    destruct (reconnect fn s1) as [[u1 s2] t2]; cbn in Hb1; subst t2.
    destruct (attempt_outcome fn s2) as (o2 & He2 & Ho2 & Hok2 & _ & _ & Hv2).
    destruct (attempt fn s2) as [[r2 s3] t3]; cbn in He2, Ho2, Hok2, Hv2; subst t3.
    rewrite Hok2; destruct (completed o2) eqn:Hc2.
    + destruct (Hv2 eq_refl) as (v & -> & ->); cbn.
      split; [now constructor | discriminate].
    + destruct (reconnect_events fn s3) as (b2 & Hb2).
      destruct (reconnect fn s3) as [[u2 s4] t4]; cbn in Hb2; subst t4.
      cbn; split; [now constructor | discriminate].
Qed.

(** [halCall]: the events of the static initialisers, then a run of the loop. *)
Lemma halCall_run {R : Type} (fn : Call R) (st : St W) :
  exists init body,
    events (halCall fn st) = init ++ body /\
    init_events fn init /\
    loop_run fn body (result (halCall fn st)).
Proof.
  unfold halCall, mbind, static_init.
  destruct (statics st (inst_of fn)) as [sl|].
  - exists [], (events (if negb (sAvailable sl) then mret NullptrStatus st
                        else tries NUM_TRIES fn (RetStatus EX_NONE) st)).
    destruct (sAvailable sl); cbn [negb].
    + destruct (tries_run fn st) as [Hrun _].
      destruct (tries NUM_TRIES fn (RetStatus EX_NONE) st) as [[r s] t].
      repeat split; [now left | exact Hrun].
    + cbn; repeat split; [now left | constructor].
  - destruct (getService (iface_of fn) (world st)) as [h w].
    set (st1 := mkSt w _).
    exists [EvGetService (iface_of fn) (isSome h)],
      (events (if negb (isSome h) then mret NullptrStatus st1
               else tries NUM_TRIES fn (RetStatus EX_NONE) st1)).
    cbn [sAvailable]; destruct (isSome h); cbn [negb].
    + destruct (tries_run fn st1) as [Hrun _].
      destruct (tries NUM_TRIES fn (RetStatus EX_NONE) st1) as [[r s] t].
      repeat split; [right; eauto | exact Hrun].
    + cbn; repeat split; [right; eauto | constructor].
Qed.


(** Every pass of [halCall fn] is a pass of [fn]. *)
Lemma halCall_attempts_desc {R : Type} (fn : Call R) (st : St W) :
  Forall (fun a => fst a = desc fn) (attempts (events (halCall fn st))).
Proof.
  destruct (halCall_run fn st) as (init & body & -> & Hinit & Hrun).
  destruct Hinit as [-> | [b ->]]; inversion Hrun; subst; cbn;
    repeat constructor.
Qed.

(** A reply seen in a run of the loop is the value returned. *)
Lemma loop_run_replied {R : Type} (fn : Call R) (body : list Event)
    (r : Return R) (c : CallDesc) (d : ReplyDesc) :
  loop_run fn body r -> In (EvAttempt c (Replied d)) body ->
  exists v, r = RetVal v /\ d = reply_desc fn v.
Proof.
  intros Hrun Hin.
  inversion Hrun as [Hb Hr | v Hb Hr | o1 b v Hc Hb Hr | o1 o2 b1 b2 r' Hc1 Hc2 Ho Hk Hb Hr];
    subst; cbn in Hin.
  - contradiction.
  - destruct Hin as [E | []]; inversion E; eauto.
  - destruct Hin as [E | [E | [E | [E | []]]]]; inversion E; subst;
      [discriminate Hc | eauto].
  - destruct Hin as [E | [E | [E | [E | [E | [E | []]]]]]]; inversion E; subst;
      discriminate.
Qed.

(** Error lines of a run of the loop: one per pass that did not complete. *)
Lemma loop_run_errors {R : Type} (fn : Call R) (body : list Event) (r : Return R) :
  loop_run fn body r ->
  error_diags body = repeat FailedToIssueCommand (failed_passes body) /\
  reconnections body = failed_passes body.
Proof.
  intros Hrun; unfold failed_passes.
  inversion Hrun as [Hb Hr | v Hb Hr | o1 b v Hc Hb Hr | o1 o2 b1 b2 r' Hc1 Hc2 Ho Hk Hb Hr];
    subst; cbn; rewrite ?Hc, ?Hc1, ?Hc2; cbn; auto.
Qed.

(** Passes whose outcomes all failed leave a value that is not [isOk]. *)
Lemma loop_run_all_failed {R : Type} (fn : Call R) (body : list Event) (r : Return R) :
  loop_run fn body r ->
  Forall (fun a => completed (snd a) = false) (attempts body) ->
  isOk r = false.
Proof.
  intros Hrun Hall.
  inversion Hrun as [Hb Hr | v Hb Hr | o1 b v Hc Hb Hr | o1 o2 b1 b2 r' Hc1 Hc2 Ho Hk Hb Hr];
    subst; cbn in Hall; auto.
  - inversion Hall as [|? ? Hx ?]; discriminate Hx.
  - inversion Hall as [|? ? _ Hy]; inversion Hy as [|? ? Hx ?]; discriminate Hx.
Qed.

Lemma init_events_plain {R : Type} (fn : Call R) (init : list Event) :
  init_events fn init ->
  attempts init = [] /\ error_diags init = [] /\ reconnections init = O /\
  (forall c o, ~ In (EvAttempt c o) init).
Proof.
  intros [-> | [b ->]]; cbn; repeat split; auto; intros c o [E | []]; discriminate.
Qed.

Lemma set_sHal_keeps_available (f : Inst -> option Slot) (i j : Inst)
    (h : option Handle) :
  option_map sAvailable (set_sHal f i h j) = option_map sAvailable (f j).
Proof.
  destruct (Inst_eq_dec j i) as [-> | Hne].
  - apply set_sHal_available.
  - now rewrite set_sHal_other.
Qed.

(** The loop writes to the statics of its own instantiation only. *)
Lemma tries_other {R : Type} (fn : Call R) (j : Inst) (n : nat) :
  j <> inst_of fn ->
  forall (ret : Return R) (st : St W),
    statics (after (tries n fn ret st)) j = statics st j.
Proof.
  intros Hne; induction n as [|n IH]; intros ret st; [reflexivity|].
  cbn [tries]; unfold mbind, ALOGE, emit, mret.
  destruct (attempt_outcome fn st) as (o & _ & _ & _ & Hst & _).
  destruct (attempt fn st) as [[r1 s1] t1]; cbn in Hst.
  destruct (isOk r1); [cbn; apply Hst|].
  pose proof (reconnect_other fn s1 j Hne) as Hrec.
  destruct (reconnect fn s1) as [[u s2] t2]; cbn in Hrec.
  specialize (IH r1 s2).
  destruct (tries n fn r1 s2) as [[r3 s3] t3]; cbn in IH |- *.
  now rewrite IH, Hrec, Hst.
Qed.

(** The loop never writes [sAvailable]. *)
Lemma tries_keeps_available {R : Type} (fn : Call R) (j : Inst) (n : nat) :
  forall (ret : Return R) (st : St W),
    option_map sAvailable (statics (after (tries n fn ret st)) j) =
    option_map sAvailable (statics st j).
Proof.
  induction n as [|n IH]; intros ret st; [reflexivity|].
  cbn [tries]; unfold mbind, ALOGE, emit, mret.
  destruct (attempt_outcome fn st) as (o & _ & _ & _ & Hst & _).
  destruct (attempt fn st) as [[r1 s1] t1]; cbn in Hst.
  destruct (isOk r1); [cbn; now rewrite Hst|].
  unfold reconnect.
  destruct (tryGetService (iface_of fn) (world s1)) as [h w].
  specialize (IH r1 (mkSt w (set_sHal (statics s1) (inst_of fn) h))).
  destruct (tries n fn r1 _) as [[r3 s3] t3]; cbn in IH |- *.
  now rewrite IH, set_sHal_keeps_available, Hst.
Qed.

(** The first pass of the loop uses the handle the statics hold. *)
Lemma tries_first {R : Type} (fn : Call R) (n : nat) (ret : Return R) (st : St W) :
  exists o rest,
    attempts (events (tries (S n) fn ret st)) = (desc fn, o) :: rest /\
    contacted o = isSome (get_sHal (statics st) (inst_of fn)).
Proof.
  cbn [tries]; unfold mbind, ALOGE, emit, mret.
  destruct (attempt_outcome fn st) as (o & He & _ & _ & _ & Hc & _).
  destruct (attempt fn st) as [[r1 s1] t1]; cbn in He; subst t1.
  destruct (isOk r1).
  - exists o, []; split; [reflexivity | exact Hc].
  - destruct (reconnect fn s1) as [[u s2] t2].
    destruct (tries n fn r1 s2) as [[r3 s3] t3].
    cbn; eexists o, _; split; [reflexivity | exact Hc].
Qed.

(** [halCall] leaves the statics of every other instantiation as they are. *)
Lemma halCall_other {R : Type} (fn : Call R) (st : St W) (j : Inst) :
  j <> inst_of fn -> statics (after (halCall fn st)) j = statics st j.
Proof.
  intros Hne; unfold halCall, mbind, static_init, mret.
  destruct (statics st (inst_of fn)) as [sl|].
  - destruct (negb (sAvailable sl)); [reflexivity|].
    pose proof (tries_other fn j NUM_TRIES Hne (RetStatus EX_NONE) st) as Ht.
    destruct (tries NUM_TRIES fn (RetStatus EX_NONE) st) as [[r s1] t].
    exact Ht.
  - destruct (getService (iface_of fn) (world st)) as [h w].
    cbn [sAvailable].
    destruct (negb (isSome h)); [cbn; now apply upd_other|].
    set (st1 := mkSt w _).
    pose proof (tries_other fn j NUM_TRIES Hne (RetStatus EX_NONE) st1) as Ht.
    destruct (tries NUM_TRIES fn (RetStatus EX_NONE) st1) as [[r s1] t].
    cbn in Ht |- *; rewrite Ht; subst st1; cbn; now apply upd_other.
Qed.

(** An instantiation whose flag is recorded false: the call returns the
    null-pointer status at once; no event, no change of state. *)
Lemma halCall_unavailable {R : Type} (fn : Call R) (st : St W) (sl : Slot) :
  statics st (inst_of fn) = Some sl -> sAvailable sl = false ->
  halCall fn st = (NullptrStatus, st, []).
Proof.
  intros Hs Ha; unfold halCall, mbind, static_init, mret.
  rewrite Hs, Ha; reflexivity.
Qed.


(** Once the statics of an instantiation are initialised, no call of any
    instantiation changes its [sAvailable]. *)
Lemma halCall_keeps_available {R : Type} (fn : Call R) (st : St W) (j : Inst)
    (sl : Slot) :
  statics st j = Some sl ->
  option_map sAvailable (statics (after (halCall fn st)) j) =
  Some (sAvailable sl).
Proof.
  intros Hs.
  destruct (Inst_eq_dec j (inst_of fn)) as [-> | Hne];
    [| now rewrite halCall_other, Hs].
  unfold halCall, mbind, static_init, mret; rewrite Hs.
  destruct (negb (sAvailable sl)); [cbn; now rewrite Hs|].
  pose proof (tries_keeps_available fn (inst_of fn) NUM_TRIES
                (RetStatus EX_NONE) st) as Ht.
  destruct (tries NUM_TRIES fn (RetStatus EX_NONE) st) as [[r s1] t].
  cbn in Ht |- *; now rewrite Ht, Hs.
Qed.

(** With a non-null handle to start from, the first pass calls the service. *)
Lemma halCall_live {R : Type} (fn : Call R) (st : St W) :
  live fn st = true ->
  exists o rest,
    attempts (events (halCall fn st)) = (desc fn, o) :: rest /\
    contacted o = true.
Proof.
  unfold live, halCall, mbind, static_init, mret; intros Hl.
  destruct (statics st (inst_of fn)) as [sl|] eqn:Hs.
  - apply andb_prop in Hl as [Ha Hh]; rewrite Ha; cbn [negb].
    destruct (tries_first fn 1 (RetStatus EX_NONE) st) as (o & rest & He & Hc).
    fold NUM_TRIES in He.
    destruct (tries NUM_TRIES fn (RetStatus EX_NONE) st) as [[r s1] t].
    cbn in He |- *; exists o, rest; split; [exact He|].
    rewrite Hc; unfold get_sHal; now rewrite Hs.
  - destruct (getService (iface_of fn) (world st)) as [h w]; cbn in Hl.
    cbn [sAvailable]; rewrite Hl; cbn [negb].
    set (st1 := mkSt w _).
    destruct (tries_first fn 1 (RetStatus EX_NONE) st1) as (o & rest & He & Hc).
    fold NUM_TRIES in He.
    destruct (tries NUM_TRIES fn (RetStatus EX_NONE) st1) as [[r s1] t].
    cbn in He |- *; exists o, rest; split; [exact He|].
    rewrite Hc; subst st1; unfold get_sHal; cbn; now rewrite upd_same.
Qed.

(** Two calls share an instantiation exactly when they name the same member
    function. *)
Lemma inst_of_method {R R' : Type} (fn : Call R) (fn' : Call R') :
  inst_of fn = inst_of fn' <-> method_of fn = method_of fn'.
Proof.
  destruct fn, fn'; cbn; split; intros E; try discriminate E; reflexivity.
Qed.

(** C9. The statics are per instantiation of [halCall], one per member
    function called: a call of [fn], reconnections included, leaves the
    cached handle and the availability flag of every other member function's
    instantiation as they were. *)
Theorem halCall_statics_per_instantiation {R R' : Type}
    (fn : Call R) (fn' : Call R') (st : St W) :
  method_of fn' <> method_of fn ->
  inst_of fn' <> inst_of fn /\
  statics (after (halCall fn st)) (inst_of fn') = statics st (inst_of fn').
Proof.
  intros Hm.
  assert (Hne : inst_of fn' <> inst_of fn)
    by (intros E; apply Hm; now apply inst_of_method).
  split; [exact Hne | now apply halCall_other].
Qed.


End Dispatcher.

(** ** Properties of the native methods *)

Section NativeMethods.

Context {W : Type} {hal : VibratorHal W}.

(** An identifier outside the range: one warning, then the closing [if]
    chain on the locals as they were on entry. *)
Lemma performEffect_out_of_range (ind : Locals) (effect strength : Z) (st : St W) :
  (effect <? 0) || (effect >? MAX_KNOWN_EFFECT) = true ->
  vibratorPerformEffect ind effect strength st =
  (verdict ind, st,
   EvLog ANDROID_LOG_WARN (InvalidEffectId (to_int32 effect))
     :: verdict_log effect strength ind).
Proof.
  intros Hr; unfold vibratorPerformEffect, mbind, ALOGW, ALOGE, emit, mret.
  rewrite Hr; cbn; unfold verdict, verdict_log.
  destruct (Status_eqb (l_status ind) OK); [reflexivity|].
  destruct (negb (Status_eqb (l_status ind) UNSUPPORTED_OPERATION)); reflexivity.
Qed.

(** An identifier in range: one [halCall] of the entry point, the warning if
    it did not complete, then the closing [if] chain on the locals as the
    callback left them. *)
Lemma performEffect_in_range (ind : Locals) (effect strength : Z) (st : St W) :
  (effect <? 0) || (effect >? MAX_KNOWN_EFFECT) = false ->
  let h := halCall (entry_point effect strength) st in
  let l := callback (result h) ind in
  vibratorPerformEffect ind effect strength st =
  (verdict l, after h,
   events h ++ transport_warning effect (result h)
     ++ verdict_log effect strength l).
Proof.
  intros Hr; unfold vibratorPerformEffect, entry_point, transport_warning,
    mbind, ALOGW, ALOGE, emit, mret.
  rewrite Hr.
  destruct (effect =? MAX_KNOWN_EFFECT);
    match goal with |- context [halCall ?c st] =>
      destruct (halCall c st) as [[r s1] t] end;
    cbn; unfold verdict, verdict_log;
    destruct (negb (isOk r));
    destruct (Status_eqb (l_status (callback r ind)) OK);
    try destruct (negb (Status_eqb (l_status (callback r ind))
                          UNSUPPORTED_OPERATION));
    cbn; rewrite ?app_nil_r, <- ?app_assoc; reflexivity.
Qed.

Lemma attempts_app (a b : list Event) :
  attempts (a ++ b) = attempts a ++ attempts b.
Proof.
  induction a as [|e a IH]; [reflexivity|].
  destruct e; cbn; now rewrite ?IH.
Qed.

Lemma error_diags_app (a b : list Event) :
  error_diags (a ++ b) = error_diags a ++ error_diags b.
Proof.
  induction a as [|e a IH]; [reflexivity|].
  destruct e as [| | |[] d]; cbn; now rewrite ?IH.
Qed.

Lemma failed_passes_app (a b : list Event) :
  failed_passes (a ++ b) = (failed_passes a + failed_passes b)%nat.
Proof.
  unfold failed_passes.
  now rewrite attempts_app, filter_app, length_app.
Qed.

Lemma verdict_log_plain (effect strength : Z) (l : Locals) :
  attempts (verdict_log effect strength l) = [] /\
  (forall c o, ~ In (EvAttempt c o) (verdict_log effect strength l)).
Proof.
  unfold verdict_log.
  destruct (Status_eqb (l_status l) OK);
    [| destruct (negb (Status_eqb (l_status l) UNSUPPORTED_OPERATION))];
    cbn; split; auto; intros c o [E | []]; discriminate.
Qed.

Lemma transport_warning_plain (effect : Z) (ret : Return (Status * Z)) :
  attempts (transport_warning effect ret) = [] /\
  error_diags (transport_warning effect ret) = [] /\
  (forall c o, ~ In (EvAttempt c o) (transport_warning effect ret)).
Proof.
  unfold transport_warning.
  destruct (negb (isOk ret)); cbn; repeat split; auto;
    intros c o [E | []]; discriminate.
Qed.

(** The passes of [vibratorPerformEffect] are those of its one [halCall]. *)
Lemma performEffect_attempts (ind : Locals) (effect strength : Z) (st : St W) :
  (effect <? 0) || (effect >? MAX_KNOWN_EFFECT) = false ->
  attempts (events (vibratorPerformEffect ind effect strength st)) =
  attempts (events (halCall (entry_point effect strength) st)).
Proof.
  intros Hr; rewrite (performEffect_in_range ind effect strength st Hr).
  unfold events at 1; cbn [snd].
  rewrite !attempts_app.
  destruct (transport_warning_plain effect
              (result (halCall (entry_point effect strength) st))) as (-> & _).
  destruct (verdict_log_plain effect strength
              (callback (result (halCall (entry_point effect strength) st)) ind))
    as (-> & _).
  now rewrite !app_nil_r.
Qed.

(** A reply seen in a run of [vibratorPerformEffect] is what its [halCall]
    returned; the identifier was in range. *)
Lemma performEffect_reply (ind : Locals) (effect strength : Z) (st : St W)
    (c : CallDesc) (s : Status) (d : Z) :
  In (EvAttempt c (Replied (R_perform s d)))
     (events (vibratorPerformEffect ind effect strength st)) ->
  (effect <? 0) || (effect >? MAX_KNOWN_EFFECT) = false /\
  result (halCall (entry_point effect strength) st) = RetVal (s, d).
Proof.
  intros Hin.
  destruct ((effect <? 0) || (effect >? MAX_KNOWN_EFFECT)) eqn:Hr.
  - rewrite (performEffect_out_of_range ind effect strength st Hr) in Hin.
    unfold events in Hin; cbn [snd] in Hin.
    destruct Hin as [E | Hin]; [discriminate E|].
    now apply verdict_log_plain in Hin.
  - split; [reflexivity|].
    rewrite (performEffect_in_range ind effect strength st Hr) in Hin.
    unfold events at 1 in Hin; cbn [snd] in Hin.
    apply in_app_or in Hin as [Hin | Hin];
      [| apply in_app_or in Hin as [Hin | Hin];
         [now apply transport_warning_plain in Hin
         | now apply verdict_log_plain in Hin]].
    destruct (halCall_run (entry_point effect strength) st)
      as (init & body & He & Hi & Hrun).
    rewrite He in Hin; apply in_app_or in Hin as [Hin | Hin];
      [now apply (init_events_plain _ _ Hi) in Hin|].
    destruct (loop_run_replied _ _ _ _ _ Hrun Hin) as ([s' d'] & Hv & Hd).
    rewrite Hv; unfold entry_point in Hd.
    destruct (effect =? MAX_KNOWN_EFFECT); cbn in Hd; now inversion Hd.
Qed.

(** C7. A call that completes with status [OK] and duration [d]:
    [vibratorPerformEffect] returns [d]. *)
Theorem performEffect_ok_returns_duration
    (ind : Locals) (effect strength : Z) (st : St W) (c : CallDesc) (d : Z) :
  In (EvAttempt c (Replied (R_perform OK d)))
     (events (vibratorPerformEffect ind effect strength st)) ->
  result (vibratorPerformEffect ind effect strength st) = d.
Proof.
  intros Hin; destruct (performEffect_reply _ _ _ _ _ _ _ Hin) as (Hr & Hv).
  rewrite (performEffect_in_range ind effect strength st Hr).
  unfold result at 1; cbn [fst]; rewrite Hv; reflexivity.
Qed.

(** C6, as the code has it.  A call that completes with status
    [UNSUPPORTED_OPERATION]: [vibratorPerformEffect] returns -1 and writes no
    error line of its own; the error lines of the run are the dispatcher's
    retry line, one per pass that failed before the call completed, at most
    one, and none when the first pass completed. *)
Theorem performEffect_unsupported_is_quiet
    (ind : Locals) (effect strength : Z) (st : St W) (c : CallDesc) (d : Z) :
  In (EvAttempt c (Replied (R_perform UNSUPPORTED_OPERATION d)))
     (events (vibratorPerformEffect ind effect strength st)) ->
  result (vibratorPerformEffect ind effect strength st) = -1 /\
  error_diags (events (vibratorPerformEffect ind effect strength st)) =
    repeat FailedToIssueCommand
      (failed_passes (events (vibratorPerformEffect ind effect strength st))) /\
  (failed_passes (events (vibratorPerformEffect ind effect strength st)) <= 1)%nat.
Proof.
  intros Hin; destruct (performEffect_reply _ _ _ _ _ _ _ Hin) as (Hr & Hv).
  rewrite (performEffect_in_range ind effect strength st Hr).
  unfold result at 1, events; cbn [fst snd]; rewrite Hv.
  cbn; rewrite !app_nil_r.
  split; [reflexivity|].
  destruct (halCall_run (entry_point effect strength) st)
    as (init & body & He & Hi & Hrun).
  unfold events in He; rewrite He, error_diags_app, failed_passes_app.
  destruct (init_events_plain _ _ Hi) as (Ha & Hd & _ & _).
  unfold failed_passes at 1 3; rewrite Ha, Hd; cbn [filter length app Nat.add].
  split; [now apply (loop_run_errors _ _ _ Hrun)|].
  rewrite Hv in Hrun; unfold failed_passes.
  inversion Hrun as [Hb Hx | v Hb Hx | o1 b v Hc Hb Hx
                    | o1 o2 b1 b2 r' Hc1 Hc2 Ho Hk Hb Hx];
    subst; cbn; rewrite ?Hc; cbn; try lia.
  discriminate Hk.
Qed.

Lemma MAX_KNOWN_EFFECT_range : 0 <= MAX_KNOWN_EFFECT < 2 ^ 32.
Proof. unfold MAX_KNOWN_EFFECT, to_uint32; apply Z.mod_pos_bound; lia. Qed.

Lemma in_range_test (effect : Z) :
  0 <= effect <= MAX_KNOWN_EFFECT ->
  (effect <? 0) || (effect >? MAX_KNOWN_EFFECT) = false /\
  to_uint32 effect = effect.
Proof.
  intros He; pose proof MAX_KNOWN_EFFECT_range as Hm; split.
  - apply orb_false_iff; split; [apply Z.ltb_ge | rewrite Z.gtb_ltb; apply Z.ltb_ge]; lia.
  - unfold to_uint32; apply Z.mod_small; lia.
Qed.

(** C4. An identifier in [[0, MAX_KNOWN_EFFECT]]: for [TICK] every pass is a
    pass of [perform_1_1] with the identifier and the strength, the statics
    of [perform] are not touched, and a live handle is called; for every
    other identifier the same with [perform], the statics of [perform_1_1]
    untouched. *)
Theorem performEffect_routing
    (ind : Locals) (effect strength : Z) (st : St W) :
  0 <= effect <= MAX_KNOWN_EFFECT ->
  let x := vibratorPerformEffect ind effect strength st in
  let ext := perform_1_1 effect (static_cast_EffectStrength strength) in
  let base := perform effect (static_cast_EffectStrength strength) in
  (effect = MAX_KNOWN_EFFECT ->
   Forall (fun a => fst a = desc ext) (attempts (events x)) /\
   statics (after x) (inst_of base) = statics st (inst_of base) /\
   (live ext st = true ->
    exists o rest,
      attempts (events x) = (desc ext, o) :: rest /\ contacted o = true)) /\
  (effect <> MAX_KNOWN_EFFECT ->
   Forall (fun a => fst a = desc base) (attempts (events x)) /\
   statics (after x) (inst_of ext) = statics st (inst_of ext) /\
   (live base st = true ->
    exists o rest,
      attempts (events x) = (desc base, o) :: rest /\ contacted o = true)).
Proof.
  intros He x ext base; subst x.
  destruct (in_range_test effect He) as (Hr & Hu).
  rewrite (performEffect_attempts ind effect strength st Hr).
  rewrite (performEffect_in_range ind effect strength st Hr).
  unfold after at 1 2; cbn [fst snd].
  unfold entry_point; rewrite Hu.
  split; intros Hm.
  - apply Z.eqb_eq in Hm; rewrite Hm; fold ext.
    split; [apply halCall_attempts_desc|].
    split; [apply halCall_other; discriminate | apply halCall_live].
  - apply Z.eqb_neq in Hm; rewrite Hm; fold base.
    split; [apply halCall_attempts_desc|].
    split; [apply halCall_other; discriminate | apply halCall_live].
Qed.

(** C10. An identifier in range, any strength: every pass carries
    [static_cast<EffectStrength>(strength)] as its strength argument, and a
    live handle is called with it.  No branch looks at the strength. *)
Theorem performEffect_forwards_strength
    (ind : Locals) (effect strength : Z) (st : St W) :
  0 <= effect <= MAX_KNOWN_EFFECT ->
  let x := vibratorPerformEffect ind effect strength st in
  Forall (fun a => strength_arg (fst a) =
                   Some (static_cast_EffectStrength strength))
         (attempts (events x)) /\
  (live (entry_point effect strength) st = true ->
   exists c o rest,
     attempts (events x) = (c, o) :: rest /\ contacted o = true /\
     strength_arg c = Some (static_cast_EffectStrength strength)).
Proof.
  intros He x; subst x.
  destruct (in_range_test effect He) as (Hr & _).
  rewrite (performEffect_attempts ind effect strength st Hr).
  assert (Hs : strength_arg (desc (entry_point effect strength)) =
               Some (static_cast_EffectStrength strength))
    by (unfold entry_point; destruct (effect =? MAX_KNOWN_EFFECT); reflexivity).
  split.
  - eapply Forall_impl; [| apply halCall_attempts_desc].
    intros a Ha; cbn beta in Ha; now rewrite Ha.
  - intros Hl; destruct (halCall_live _ _ Hl) as (o & rest & Ha & Hc).
    now exists (desc (entry_point effect strength)), o, rest.
Qed.

(** The level as [setAmplitude] receives it. *)
Lemma to_uint8_to_uint32 (z : Z) : to_uint8 (to_uint32 z) = z mod 2 ^ 8.
Proof.
  unfold to_uint8, to_uint32.
  apply Z.mod_mod_divide; exists (2 ^ 24); reflexivity.
Qed.

(** C8, as the code has it.  [vibratorSetAmplitude] does not look at the
    level: every pass carries the level as [setAmplitude] receives it, cast
    to [uint32_t] by the source and narrowed to the [uint8_t] parameter at
    the call, which is the level modulo 2^8, and a live handle is called
    with it.  That is the level itself exactly for the levels 0 to 255. *)
Theorem setAmplitude_forwards_uint8 (amplitude : Z) (st : St W) :
  let x := vibratorSetAmplitude amplitude st in
  Forall (fun a => fst a = D_setAmplitude (amplitude mod 2 ^ 8))
         (attempts (events x)) /\
  (live (setAmplitude (amplitude mod 2 ^ 8)) st = true ->
   exists o rest,
     attempts (events x) = (D_setAmplitude (amplitude mod 2 ^ 8), o) :: rest /\
     contacted o = true) /\
  (amplitude mod 2 ^ 8 = amplitude <-> 0 <= amplitude < 2 ^ 8).
Proof.
  intros x; subst x.
  assert (Ha : attempts (events (vibratorSetAmplitude amplitude st)) =
               attempts (events (halCall (setAmplitude (amplitude mod 2 ^ 8)) st))).
  { unfold vibratorSetAmplitude, mbind, ALOGE, emit, mret.
    rewrite to_uint8_to_uint32.
    destruct (halCall (setAmplitude (amplitude mod 2 ^ 8)) st) as [[r s1] t].
    destruct (negb (Status_eqb (withDefault UNKNOWN_ERROR r) OK)); cbn;
      rewrite ?attempts_app; cbn; now rewrite app_nil_r. }
  rewrite Ha; split; [apply (halCall_attempts_desc (setAmplitude _))|].
  split; [apply (halCall_live (setAmplitude _))|].
  split; intros Hr.
  - rewrite <- Hr; apply Z.mod_pos_bound; reflexivity.
  - apply Z.mod_small; exact Hr.
Qed.

(** When no pass completes, the value [halCall] returns is not [isOk]. *)
Lemma halCall_all_failed {R : Type} (fn : Call R) (st : St W) :
  Forall (fun a => completed (snd a) = false)
         (attempts (events (halCall fn st))) ->
  isOk (result (halCall fn st)) = false.
Proof.
  destruct (halCall_run fn st) as (init & body & He & Hi & Hrun).
  rewrite He, attempts_app.
  destruct (init_events_plain _ _ Hi) as (-> & _).
  apply (loop_run_all_failed _ _ _ Hrun).
Qed.

(** Transport failure on every pass: [vibratorExists] answers [JNI_FALSE]. *)
Lemma vibratorExists_transport_failure (st : St W) :
  Forall (fun a => completed (snd a) = false)
         (attempts (events (vibratorExists st))) ->
  result (vibratorExists st) = false.
Proof.
  unfold vibratorExists, mbind, mret; intros Hall.
  pose proof (halCall_all_failed ping st) as Hk.
  destruct (halCall ping st) as [[r s1] t]; cbn in *.
  rewrite app_nil_r in Hall; now rewrite (Hk Hall).
Qed.

(** Transport failure on every pass: [vibratorSupportsAmplitudeControl]
    answers 0. *)
Lemma vibratorSupportsAmplitudeControl_transport_failure (st : St W) :
  Forall (fun a => completed (snd a) = false)
         (attempts (events (vibratorSupportsAmplitudeControl st))) ->
  result (vibratorSupportsAmplitudeControl st) = 0.
Proof.
  unfold vibratorSupportsAmplitudeControl, mbind, mret; intros Hall.
  pose proof (halCall_all_failed supportsAmplitudeControl st) as Hk.
  destruct (halCall supportsAmplitudeControl st) as [[r s1] t]; cbn in *.
  rewrite app_nil_r in Hall; specialize (Hk Hall).
  destruct r as [v | ex]; [discriminate Hk | reflexivity].
Qed.

(** Transport failure on every pass: the callback never ran, and
    [vibratorPerformEffect] decides on the locals as they were on entry. *)
Lemma performEffect_transport_failure
    (ind : Locals) (effect strength : Z) (st : St W) :
  0 <= effect <= MAX_KNOWN_EFFECT ->
  Forall (fun a => completed (snd a) = false)
         (attempts (events (vibratorPerformEffect ind effect strength st))) ->
  result (vibratorPerformEffect ind effect strength st) = verdict ind.
Proof.
  intros He; destruct (in_range_test effect He) as (Hr & _).
  rewrite (performEffect_attempts ind effect strength st Hr); intros Hall.
  apply halCall_all_failed in Hall.
  rewrite (performEffect_in_range ind effect strength st Hr).
  unfold result at 1; cbn [fst].
  destruct (result (halCall (entry_point effect strength) st)) as [v | ex];
    [discriminate Hall | reflexivity].
Qed.

(** C1.  An identifier below 0 or above [MAX_KNOWN_EFFECT]: no look-up, no
    pass, no change of state, one warning.  The value returned is decided on
    [status] and [lengthMs] as they were on entry, since nothing wrote them:
    [lengthMs] if [status] holds [OK], and -1 only otherwise. *)
Theorem performEffect_invalid_id_stale_locals
    (ind : Locals) (effect strength : Z) (st : St W) :
  effect < 0 \/ effect > MAX_KNOWN_EFFECT ->
  let x := vibratorPerformEffect ind effect strength st in
  events x = EvLog ANDROID_LOG_WARN (InvalidEffectId (to_int32 effect))
               :: verdict_log effect strength ind /\
  attempts (events x) = [] /\
  after x = st /\
  result x = (if Status_eqb (l_status ind) OK then l_lengthMs ind else -1).
Proof.
  intros He x; subst x.
  assert (Hr : (effect <? 0) || (effect >? MAX_KNOWN_EFFECT) = true).
  { apply orb_true_iff; destruct He as [He | He];
      [left; now apply Z.ltb_lt | right; rewrite Z.gtb_ltb; apply Z.ltb_lt; lia]. }
  rewrite (performEffect_out_of_range ind effect strength st Hr).
  unfold events, after, result; cbn [fst snd attempts].
  repeat split; apply verdict_log_plain.
Qed.

(** C5.  Every pass failing in transport: [vibratorExists] answers
    [JNI_FALSE] and [vibratorSupportsAmplitudeControl] answers 0.
    [vibratorPerformEffect] decides on [status] and [lengthMs] as they were
    on entry, since the callback never ran: it returns [lengthMs] if [status]
    holds [OK], and -1 only otherwise. *)
Theorem transport_failure_results
    (ind : Locals) (effect strength : Z) (st : St W) :
  let failed := fun a : CallDesc * Outcome => completed (snd a) = false in
  (Forall failed (attempts (events (vibratorExists st))) ->
   result (vibratorExists st) = false) /\
  (Forall failed (attempts (events (vibratorSupportsAmplitudeControl st))) ->
   result (vibratorSupportsAmplitudeControl st) = 0) /\
  (0 <= effect <= MAX_KNOWN_EFFECT ->
   Forall failed (attempts (events (vibratorPerformEffect ind effect strength st))) ->
   result (vibratorPerformEffect ind effect strength st) =
   (if Status_eqb (l_status ind) OK then l_lengthMs ind else -1)).
Proof.
  intros failed; subst failed; cbn beta.
  split; [apply vibratorExists_transport_failure|].
  split; [apply vibratorSupportsAmplitudeControl_transport_failure|].
  apply performEffect_transport_failure.
Qed.

End NativeMethods.

(** ** Runs in the scripted world *)


(** C6, counterexample.  [TICK] with the first call lost and the second
    answered [UNSUPPORTED_OPERATION]: the function returns -1 and the run has
    written an error line. *)
Lemma performEffect_unsupported_after_retry_logs_error :
  let x := vibratorPerformEffect (mkLocals UNKNOWN_ERROR 0) 2 1 (boot w_flaky) in
  In (EvAttempt (D_perform_1_1 2 1) (Replied (R_perform UNSUPPORTED_OPERATION 0)))
     (events x) /\
  result x = -1 /\
  error_diags (events x) = [FailedToIssueCommand].
Proof. vm_compute; auto 8. Qed.

(** C8, counterexample.  Level -1: the service is called with 255.  Level
    256: the service is called with 0. *)
Lemma setAmplitude_level_not_verbatim :
  let x := vibratorSetAmplitude (-1) (boot (w_steady (R_status OK))) in
  let y := vibratorSetAmplitude 256 (boot (w_steady (R_status OK))) in
  attempts (events x) = [(D_setAmplitude 255, Replied (R_status OK))] /\
  ~ Forall (fun a => fst a = D_setAmplitude (-1)) (attempts (events x)) /\
  attempts (events y) = [(D_setAmplitude 0, Replied (R_status OK))] /\
  ~ Forall (fun a => fst a = D_setAmplitude 256) (attempts (events y)).
Proof.
  vm_compute; split; [reflexivity|]; split.
  - intros H; inversion H as [|? ? E ?]; discriminate E.
  - split; [reflexivity|].
    intros H; inversion H as [|? ? E ?]; discriminate E.
Qed.

(** *** The theorems at sample inputs *)


Lemma halCall_statics_per_instantiation_witness :
  let st1 := after (vibratorSetAmplitude 5 (boot w_mixed)) in
  let st2 := after (halCall (perform 1 1) st1) in
  method_of (setAmplitude 5) <> method_of (perform 1 1) /\
  reconnections (events (halCall (perform 1 1) st1)) = 2%nat /\
  statics st2 (inst_of (perform 1 1)) = Some (mkSlot (Some 4%nat) true) /\
  statics st2 (inst_of (setAmplitude 5)) = Some (mkSlot (Some 1%nat) true).
Proof.
  intros st1 st2.
  assert (Hm : method_of (setAmplitude 5) <> method_of (perform 1 1))
    by discriminate.
  split; [exact Hm|].
  split; [reflexivity|].
  split; [reflexivity|].
  pose proof (halCall_statics_per_instantiation
              (perform 1 1) (setAmplitude 5) st1 Hm) as [_ Hf].
  subst st2; rewrite Hf; reflexivity.
Defined.

Lemma performEffect_routing_witness :
  let base := vibratorPerformEffect (mkLocals OK 0) 1 1
                (boot (w_steady (R_perform OK 12))) in
  let ext := vibratorPerformEffect (mkLocals OK 0) 2 1
               (boot (w_steady (R_perform OK 12))) in
  0 <= 1 <= 2 /\
  attempts (events base) = [(D_perform 1 1, Replied (R_perform OK 12))] /\
  Forall (fun a => fst a = D_perform 1 1) (attempts (events base)) /\
  Forall (fun a => fst a = D_perform_1_1 2 1) (attempts (events ext)) /\
  statics (after ext) (inst_of (perform 2 1)) = None.
Proof.
  intros base ext.
  assert (H1 : 0 <= 1 <= MAX_KNOWN_EFFECT) by (vm_compute; split; discriminate).
  assert (H2 : 0 <= 2 <= MAX_KNOWN_EFFECT) by (vm_compute; split; discriminate).
  split; [exact H1|].
  split; [reflexivity|].
  pose proof (performEffect_routing (mkLocals OK 0) 1 1
              (boot (w_steady (R_perform OK 12))) H1) as [_ Hb].
  pose proof (performEffect_routing (mkLocals OK 0) 2 1
              (boot (w_steady (R_perform OK 12))) H2) as [He _].
  assert (Hn : 1 <> MAX_KNOWN_EFFECT) by discriminate.
  pose proof (Hb Hn) as (Hb1 & _ & _).
  pose proof (He eq_refl) as (He1 & He2 & _).
  split; [exact Hb1|].
  split; [exact He1 | exact He2].
Defined.

Lemma performEffect_unsupported_is_quiet_witness :
  let x := vibratorPerformEffect (mkLocals OK 7) 2 1
             (boot (w_steady (R_perform UNSUPPORTED_OPERATION 0))) in
  In (EvAttempt (D_perform_1_1 2 1) (Replied (R_perform UNSUPPORTED_OPERATION 0)))
     (events x) /\
  result x = -1 /\
  error_diags (events x) = [].
Proof.
  intros x.
  assert (Hin : In (EvAttempt (D_perform_1_1 2 1)
                      (Replied (R_perform UNSUPPORTED_OPERATION 0))) (events x))
    by (right; left; reflexivity).
  split; [exact Hin|].
  pose proof (performEffect_unsupported_is_quiet (mkLocals OK 7) 2 1
              (boot (w_steady (R_perform UNSUPPORTED_OPERATION 0)))
              (D_perform_1_1 2 1) 0 Hin) as (H1 & H2 & _).
  split; [exact H1 | exact H2].
Defined.

Lemma performEffect_ok_returns_duration_witness :
  let x := vibratorPerformEffect (mkLocals UNKNOWN_ERROR 7) 2 1
             (boot (w_steady (R_perform OK 12))) in
  In (EvAttempt (D_perform_1_1 2 1) (Replied (R_perform OK 12))) (events x) /\
  result x = 12.
Proof.
  intros x.
  assert (Hin : In (EvAttempt (D_perform_1_1 2 1) (Replied (R_perform OK 12)))
                   (events x))
    by (right; left; reflexivity).
  split; [exact Hin|].
  exact (performEffect_ok_returns_duration (mkLocals UNKNOWN_ERROR 7) 2 1
           (boot (w_steady (R_perform OK 12))) (D_perform_1_1 2 1) 12 Hin).
Defined.

Lemma setAmplitude_forwards_uint8_witness :
  let x := vibratorSetAmplitude 128 (boot (w_steady (R_status OK))) in
  live (setAmplitude 128) (boot (w_steady (R_status OK))) = true /\
  (exists o rest,
      attempts (events x) = (D_setAmplitude 128, o) :: rest /\
      contacted o = true) /\
  0 <= 128 < 2 ^ 8 /\
  128 mod 2 ^ 8 = 128.
Proof.
  intros x.
  pose proof (setAmplitude_forwards_uint8 128 (boot (w_steady (R_status OK))))
    as (_ & Hl & Hv).
  assert (Hr : 0 <= 128 < 2 ^ 8) by (split; [discriminate | reflexivity]).
  split; [reflexivity|].
  split; [apply Hl; reflexivity|].
  split; [exact Hr|].
  apply Hv; exact Hr.
Defined.

Lemma performEffect_forwards_strength_witness :
  let x := vibratorPerformEffect (mkLocals OK 0) 1 300
             (boot (w_steady (R_perform OK 12))) in
  0 <= 1 <= 2 /\
  Forall (fun a => strength_arg (fst a) = Some (300 mod 2 ^ 8))
         (attempts (events x)) /\
  attempts (events x) = [(D_perform 1 44, Replied (R_perform OK 12))].
Proof.
  intros x.
  assert (H1 : 0 <= 1 <= MAX_KNOWN_EFFECT) by (vm_compute; split; discriminate).
  split; [exact H1|].
  pose proof (performEffect_forwards_strength (mkLocals OK 0) 1 300
              (boot (w_steady (R_perform OK 12))) H1) as [Hf _].
  split; [exact Hf | reflexivity].
Defined.

Lemma performEffect_invalid_id_stale_locals_witness :
  let x := vibratorPerformEffect (mkLocals OK 7) (-1) 1
             (boot (w_steady (R_perform OK 12))) in
  (-1 < 0 \/ -1 > 2) /\
  events x = [EvLog ANDROID_LOG_WARN (InvalidEffectId (-1))] /\
  attempts (events x) = [] /\
  result x = 7.
Proof.
  intros x.
  assert (He : -1 < 0 \/ -1 > MAX_KNOWN_EFFECT) by (left; reflexivity).
  split; [exact He|].
  pose proof (performEffect_invalid_id_stale_locals (mkLocals OK 7) (-1) 1
                (boot (w_steady (R_perform OK 12))) He) as (H1 & H2 & _ & H4).
  split; [exact H1|].
  split; [exact H2 | exact H4].
Defined.

Lemma transport_failure_results_witness :
  let x := vibratorPerformEffect (mkLocals OK 7) 1 1 (boot w_dead) in
  0 <= 1 <= 2 /\
  map snd (attempts (events x)) = [TransportFailed; TransportFailed] /\
  result x = 7 /\
  result (vibratorExists (boot w_dead)) = false.
Proof.
  intros x.
  assert (H1 : 0 <= 1 <= MAX_KNOWN_EFFECT) by (vm_compute; split; discriminate).
  split; [exact H1|].
  split; [reflexivity|].
  pose proof (transport_failure_results (mkLocals OK 7) 1 1 (boot w_dead))
    as (He & _ & Hp).
  split.
  - apply (Hp H1); repeat constructor.
  - apply He; repeat constructor.
Defined.

(** ** Further properties of the dispatcher *)

Section DispatcherMore.

Context {W : Type} {hal : VibratorHal W}.

Lemma Status_eqb_eq (a b : Status) : Status_eqb a b = true <-> a = b.
Proof.
  destruct a, b; cbn; split; intros E; try discriminate E; try reflexivity.
  - apply Z.eqb_eq in E; now subst.
  - inversion E; apply Z.eqb_refl.
Qed.

Lemma Status_eqb_neq (a b : Status) : a <> b -> Status_eqb a b = false.
Proof.
  intros Hne; destruct (Status_eqb a b) eqn:E; [|reflexivity].
  now apply Status_eqb_eq in E.
Qed.

Lemma reconnections_app (a b : list Event) :
  reconnections (a ++ b) = (reconnections a + reconnections b)%nat.
Proof.
  induction a as [|e a IH]; [reflexivity|].
  destruct e; cbn; now rewrite ?IH.
Qed.

Lemma initialisations_app (a b : list Event) :
  initialisations (a ++ b) = (initialisations a + initialisations b)%nat.
Proof.
  induction a as [|e a IH]; [reflexivity|].
  destruct e; cbn; now rewrite ?IH.
Qed.

Lemma warn_diags_app (a b : list Event) :
  warn_diags (a ++ b) = warn_diags a ++ warn_diags b.
Proof.
  induction a as [|e a IH]; [reflexivity|].
  destruct e as [| | |[] d]; cbn; now rewrite ?IH.
Qed.

(** A reply seen among the events of [halCall] is the value it returned. *)
Lemma halCall_replied {R : Type} (fn : Call R) (st : St W)
    (c : CallDesc) (d : ReplyDesc) :
  In (EvAttempt c (Replied d)) (events (halCall fn st)) ->
  exists v, result (halCall fn st) = RetVal v /\ d = reply_desc fn v.
Proof.
  destruct (halCall_run fn st) as (init & body & He & Hi & Hrun).
  rewrite He; intros Hin; apply in_app_or in Hin as [Hin | Hin].
  - now apply (init_events_plain _ _ Hi) in Hin.
  - exact (loop_run_replied _ _ _ _ _ Hrun Hin).
Qed.

(** The log of [halCall]: one error line per failed pass, no warning. *)
Lemma halCall_log {R : Type} (fn : Call R) (st : St W) :
  error_diags (events (halCall fn st)) =
    repeat FailedToIssueCommand (failed_passes (events (halCall fn st))) /\
  reconnections (events (halCall fn st)) = failed_passes (events (halCall fn st)) /\
  warn_diags (events (halCall fn st)) = [] /\
  (failed_passes (events (halCall fn st)) <= 2)%nat.
Proof.
  destruct (halCall_run fn st) as (init & body & He & Hi & Hrun).
  rewrite He, error_diags_app, reconnections_app, warn_diags_app,
    failed_passes_app.
  destruct (init_events_plain _ _ Hi) as (Ha & Hd & Hc & _).
  assert (Hf : failed_passes init = O)
    by (unfold failed_passes; now rewrite Ha).
  rewrite Hf, Hd, Hc; cbn [app Nat.add].
  destruct (loop_run_errors _ _ _ Hrun) as (H1 & H2).
  repeat split; auto.
  - destruct Hi as [-> | [b ->]]; cbn;
      inversion Hrun; subst; reflexivity.
  - unfold failed_passes; inversion Hrun; subst; cbn;
      repeat match goal with
             | H : completed _ = false |- _ => rewrite H; clear H
             end; cbn; lia.
Qed.


Lemma get_set_sHal (f : Inst -> option Slot) (i : Inst) (sl : Slot)
    (h : option Handle) :
  f i = Some sl -> get_sHal (set_sHal f i h) i = h.
Proof.
  intros Hf; unfold get_sHal, set_sHal; rewrite Hf, upd_same; reflexivity.
Qed.

Lemma loop_run_no_init {R : Type} (fn : Call R) (body : list Event) (r : Return R) :
  loop_run fn body r -> initialisations body = O.
Proof. intros Hrun; inversion Hrun; subst; reflexivity. Qed.

(** After a call the statics of its instantiation are initialised. *)
Lemma halCall_initialised {R : Type} (fn : Call R) (st : St W) :
  statics (after (halCall fn st)) (inst_of fn) <> None.
Proof.
  destruct (statics st (inst_of fn)) as [sl|] eqn:Hs.
  - pose proof (halCall_keeps_available fn st (inst_of fn) sl Hs) as Hk.
    intros E; rewrite E in Hk; discriminate Hk.
  - unfold halCall, mbind, static_init, mret; rewrite Hs.
    destruct (getService (iface_of fn) (world st)) as [h w]; cbn [sAvailable].
    destruct (negb (isSome h)); [cbn; rewrite upd_same; discriminate|].
    set (st1 := mkSt w _).
    pose proof (tries_keeps_available fn (inst_of fn) NUM_TRIES
                  (RetStatus EX_NONE) st1) as Ht.
    destruct (tries NUM_TRIES fn (RetStatus EX_NONE) st1) as [[r s1] t].
    cbn in Ht |- *; subst st1; cbn in Ht; rewrite upd_same in Ht.
    intros E; rewrite E in Ht; discriminate Ht.
Qed.

(** Initialised statics: the call runs no static initialiser. *)
Lemma halCall_no_init {R : Type} (fn : Call R) (st : St W) (sl : Slot) :
  statics st (inst_of fn) = Some sl ->
  initialisations (events (halCall fn st)) = O.
Proof.
  intros Hs; unfold halCall, mbind, static_init, mret; rewrite Hs.
  destruct (negb (sAvailable sl)); [reflexivity|].
  destruct (tries_run fn st) as [Hrun _].
  destruct (tries NUM_TRIES fn (RetStatus EX_NONE) st) as [[r s1] t].
  cbn in Hrun |- *; exact (loop_run_no_init _ _ _ Hrun).
Qed.

(** X3.  The static initialisers of an instantiation run once: a call makes
    at most one [getService] look-up, and a later call of the same
    instantiation makes none. *)
Theorem halCall_initialises_once {R R' : Type}
    (fn : Call R) (fn' : Call R') (st : St W) :
  (initialisations (events (halCall fn st)) <= 1)%nat /\
  (inst_of fn' = inst_of fn ->
   initialisations (events (halCall fn' (after (halCall fn st)))) = O).
Proof.
  split.
  - destruct (halCall_run fn st) as (init & body & He & Hi & Hrun).
    rewrite He, initialisations_app, (loop_run_no_init _ _ _ Hrun).
    destruct Hi as [-> | [b ->]]; cbn; lia.
  - intros Hi.
    pose proof (halCall_initialised fn st) as Hn.
    destruct (statics (after (halCall fn st)) (inst_of fn)) as [sl|] eqn:Hs;
      [| contradiction].
    apply halCall_no_init with (sl := sl); now rewrite Hi.
Qed.

(** X5.  A call that makes no reconnection on initialised statics changes
    no statics: the cached handle is kept for the next call.  Such a call
    made at most one pass. *)
Theorem halCall_reuses_handle {R : Type} (fn : Call R) (st : St W) (sl : Slot) :
  statics st (inst_of fn) = Some sl ->
  reconnections (events (halCall fn st)) = O ->
  (forall j, statics (after (halCall fn st)) j = statics st j) /\
  (length (attempts (events (halCall fn st))) <= 1)%nat.
Proof.
  intros Hs; unfold halCall, mbind, static_init, mret; rewrite Hs.
  destruct (negb (sAvailable sl)); [cbn; auto|].
  unfold NUM_TRIES.
  change (tries 2 fn (RetStatus EX_NONE))
    with (mbind (attempt fn)
            (fun ret' =>
               if isOk ret' then mret ret'
               else mbind (ALOGE FailedToIssueCommand)
                      (fun _ => mbind (reconnect fn)
                                  (fun _ => tries 1 fn ret')))).
  unfold mbind, ALOGE, emit, mret.
  destruct (attempt_outcome fn st) as (o1 & He1 & _ & _ & Hst1 & _ & _).
  destruct (attempt fn st) as [[r1 s1] t1]; cbn in He1, Hst1; subst t1.
  destruct (isOk r1); [cbn; auto|].
  destruct (reconnect_events fn s1) as (b1 & Hb1).
  destruct (reconnect fn s1) as [[u1 s2] t2]; cbn in Hb1; subst t2.
  destruct (tries 1 fn r1 s2) as [[r3 s3] t3].
  cbn; intros Hrec; discriminate Hrec.
Qed.

(** The call on statics that are available and hold no handle, step by
    step. *)
Lemma halCall_lost_handle_run {R : Type} (fn : Call R) (st : St W)
    (h : Handle) (w : W) :
  statics st (inst_of fn) = Some (mkSlot None true) ->
  tryGetService (iface_of fn) (world st) = (Some h, w) ->
  let f1 := set_sHal (statics st) (inst_of fn) (Some h) in
  halCall fn st =
  match transact R h fn w with
  | (Some v, w2) =>
      (RetVal v, mkSt w2 f1,
       [EvAttempt (desc fn) NullHandle;
        EvLog ANDROID_LOG_ERROR FailedToIssueCommand;
        EvTryGetService (iface_of fn) true;
        EvAttempt (desc fn) (Replied (reply_desc fn v))])
  | (None, w2) =>
      let '(h2, w3) := tryGetService (iface_of fn) w2 in
      (RetStatus EX_TRANSACTION_FAILED,
       mkSt w3 (set_sHal f1 (inst_of fn) h2),
       [EvAttempt (desc fn) NullHandle;
        EvLog ANDROID_LOG_ERROR FailedToIssueCommand;
        EvTryGetService (iface_of fn) true;
        EvAttempt (desc fn) TransportFailed;
        EvLog ANDROID_LOG_ERROR FailedToIssueCommand;
        EvTryGetService (iface_of fn) (isSome h2)])
  end.
Proof.
  intros Hs Hg f1; unfold halCall, mbind, static_init, mret; rewrite Hs.
  cbn [sAvailable negb]; unfold NUM_TRIES; cbn [tries].
  unfold mbind, ALOGE, emit, mret.
  unfold attempt at 1; unfold get_sHal at 1; rewrite Hs; cbn [sHal].
  unfold NullptrStatus at 1; cbn [isOk].
  unfold reconnect at 1; rewrite Hg.
  unfold attempt at 1; cbn [statics world].
  rewrite (get_set_sHal _ _ _ (Some h) Hs); fold f1.
  destruct (transact R h fn w) as [[v|] w2]; cbn [isOk]; [reflexivity|].
  unfold reconnect; cbn [statics world].
  destruct (tryGetService (iface_of fn) w2) as [h2 w3]; reflexivity.
Qed.

(** X6.  Statics that are available but hold no handle (a reconnection found
    nothing): the first pass does not call the service, and when
    [tryGetService] now finds it the second pass calls it; if that pass
    completes the new handle stays cached. *)
Theorem halCall_recovers_lost_handle {R : Type} (fn : Call R) (st : St W)
    (h : Handle) :
  statics st (inst_of fn) = Some (mkSlot None true) ->
  fst (tryGetService (iface_of fn) (world st)) = Some h ->
  exists o,
    attempts (events (halCall fn st)) = [(desc fn, NullHandle); (desc fn, o)] /\
    contacted o = true /\
    (completed o = true ->
     statics (after (halCall fn st)) (inst_of fn) = Some (mkSlot (Some h) true)).
Proof.
  intros Hs Hg.
  destruct (tryGetService (iface_of fn) (world st)) as [h' w] eqn:Ht;
    cbn in Hg; subst h'.
  rewrite (halCall_lost_handle_run fn st h w Hs Ht).
  destruct (transact R h fn w) as [[v|] w2].
  - exists (Replied (reply_desc fn v)); cbn.
    split; [reflexivity|]; split; [reflexivity|]; intros _.
    unfold set_sHal; rewrite Hs; apply upd_same.
  - destruct (tryGetService (iface_of fn) w2) as [h2 w3].
    exists TransportFailed; cbn.
    split; [reflexivity|]; split; [reflexivity|]; discriminate.
Qed.

End DispatcherMore.

(** ** The passes and the look-ups of the dispatcher, by what they act on *)

Section Retry.

Context {W : Type} {hal : VibratorHal W}.

(** One pass of the loop is [pass] on the cached handle and the current
    world; it changes no statics. *)
Lemma attempt_eq {R : Type} (fn : Call R) (st : St W) :
  attempt fn st =
  (let '(r, w, o) := pass (get_sHal (statics st) (inst_of fn)) fn (world st) in
   (r, mkSt w (statics st), [EvAttempt (desc fn) o])).
Proof.
  unfold attempt, pass.
  destruct (get_sHal (statics st) (inst_of fn)) as [h|].
  - destruct (transact R h fn (world st)) as [[v|] w]; reflexivity.
  - destruct st; reflexivity.
Qed.

(** The loop on initialised statics, written out. *)
Lemma tries_unrolled {R : Type} (fn : Call R) (st : St W) (sl : Slot) :
  statics st (inst_of fn) = Some sl ->
  tries NUM_TRIES fn (RetStatus EX_NONE) st =
  (let i := iface_of fn in
   let d := desc fn in
   let err := EvLog ANDROID_LOG_ERROR FailedToIssueCommand in
   let '(r1, w1, o1) := pass (sHal sl) fn (world st) in
   if isOk r1 then (r1, mkSt w1 (statics st), [EvAttempt d o1])
   else
     let '(h1, w2) := tryGetService i w1 in
     let f1 := set_sHal (statics st) (inst_of fn) h1 in
     let '(r2, w3, o2) := pass h1 fn w2 in
     if isOk r2 then
       (r2, mkSt w3 f1,
        [EvAttempt d o1; err; EvTryGetService i (isSome h1); EvAttempt d o2])
     else
       let '(h2, w4) := tryGetService i w3 in
       (r2, mkSt w4 (set_sHal f1 (inst_of fn) h2),
        [EvAttempt d o1; err; EvTryGetService i (isSome h1); EvAttempt d o2;
         err; EvTryGetService i (isSome h2)])).
Proof.
  intros Hs.
  unfold NUM_TRIES; cbn [tries]; unfold mbind, ALOGE, emit, mret.
  rewrite (attempt_eq fn st).
  unfold get_sHal at 1; rewrite Hs.
  destruct (pass (sHal sl) fn (world st)) as [[r1 w1] o1]; cbn zeta.
  destruct (isOk r1); [reflexivity|].
  unfold reconnect at 1; cbn [world statics].
  destruct (tryGetService (iface_of fn) w1) as [h1 w2].
  rewrite attempt_eq; cbn [world statics].
  rewrite (get_set_sHal _ _ sl h1 Hs).
  destruct (pass h1 fn w2) as [[r2 w3] o2].
  destruct (isOk r2); [reflexivity|].
  unfold reconnect; cbn [world statics].
  destruct (tryGetService (iface_of fn) w3) as [h2 w4]; reflexivity.
Qed.

(** When the loop is entered, [halCall] is the events of the static
    initialisers followed by the loop on initialised statics that hold the
    entry handle in the entry world. *)
Lemma halCall_entered {R : Type} (fn : Call R) (st : St W)
    (h0 : option Handle) (w0 : W) :
  loop_entry fn st = Some (h0, w0) ->
  exists init st1 sl,
    init_events fn init /\
    statics st1 (inst_of fn) = Some sl /\ sHal sl = h0 /\ world st1 = w0 /\
    halCall fn st =
    (let '(r, s, t) := tries NUM_TRIES fn (RetStatus EX_NONE) st1 in
     (r, s, init ++ t)).
Proof.
  unfold loop_entry, halCall, mbind, static_init, mret.
  destruct (statics st (inst_of fn)) as [sl|] eqn:Hs.
  - destruct (sAvailable sl) eqn:Ha; intros E; inversion E; subst.
    exists [], st, sl; cbn [negb].
    split; [now left|].
    split; [exact Hs|]; split; [reflexivity|]; split; [reflexivity|].
    now destruct (tries NUM_TRIES fn (RetStatus EX_NONE) st) as [[r s] t].
  - destruct (getService (iface_of fn) (world st)) as [h w].
    destruct (isSome h) eqn:Hh; intros E; inversion E; subst.
    exists [EvGetService (iface_of fn) true],
      (mkSt w0 (upd (statics st) (inst_of fn) (Some (mkSlot h0 true)))),
      (mkSlot h0 true).
    cbn [sAvailable negb statics world sHal].
    split; [right; eauto|].
    split; [apply upd_same|]; split; [reflexivity|]; split; [reflexivity|].
    now destruct (tries NUM_TRIES fn _ _) as [[r s] t].
Qed.

(** The passes of [halCall], by the handle and the world each acts on. *)
Lemma halCall_passes {R : Type} (fn : Call R) (st : St W)
    (h0 : option Handle) (w0 : W) :
  loop_entry fn st = Some (h0, w0) ->
  let x := halCall fn st in
  let p1 := pass h0 fn w0 in
  (isOk (fst (fst p1)) = true ->
   result x = fst (fst p1) /\
   world (after x) = snd (fst p1) /\
   get_sHal (statics (after x)) (inst_of fn) = h0 /\
   attempts (events x) = [(desc fn, snd p1)] /\
   reconnections (events x) = O) /\
  (isOk (fst (fst p1)) = false ->
   let l1 := tryGetService (iface_of fn) (snd (fst p1)) in
   let p2 := pass (fst l1) fn (snd l1) in
   result x = fst (fst p2) /\
   attempts (events x) = [(desc fn, snd p1); (desc fn, snd p2)] /\
   (isOk (fst (fst p2)) = true ->
    world (after x) = snd (fst p2) /\
    get_sHal (statics (after x)) (inst_of fn) = fst l1 /\
    reconnections (events x) = 1%nat) /\
   (isOk (fst (fst p2)) = false ->
    let l2 := tryGetService (iface_of fn) (snd (fst p2)) in
    world (after x) = snd l2 /\
    get_sHal (statics (after x)) (inst_of fn) = fst l2 /\
    reconnections (events x) = 2%nat /\
    exists pre,
      events x = pre ++ [EvLog ANDROID_LOG_ERROR FailedToIssueCommand;
                         EvTryGetService (iface_of fn) (isSome (fst l2))])).
Proof.
  intros He x.
  destruct (halCall_entered fn st h0 w0 He)
    as (init & st1 & sl & Hi & Hs & Hh & Hw & Hx).
  fold x in Hx; clearbody x; subst x h0 w0.
  rewrite (tries_unrolled fn st1 sl Hs); cbn zeta.
  destruct (pass (sHal sl) fn (world st1)) as [[r1 w1] o1]; cbn [fst snd].
  split; intros Hk1; rewrite Hk1.
  - unfold result, after, events; cbn [fst snd world statics].
    rewrite attempts_app, reconnections_app.
    destruct (init_events_plain _ _ Hi) as (-> & _ & -> & _).
    unfold get_sHal; rewrite Hs; auto.
  - destruct (tryGetService (iface_of fn) w1) as [h1 w2]; cbn [fst snd].
    destruct (pass h1 fn w2) as [[r2 w3] o2]; cbn [fst snd].
    destruct (isOk r2) eqn:Hk2.
    + unfold result, after, events; cbn [fst snd world statics].
      rewrite attempts_app, reconnections_app.
      destruct (init_events_plain _ _ Hi) as (-> & _ & -> & _).
      rewrite (get_set_sHal _ _ sl h1 Hs).
      repeat split; auto; discriminate.
    + destruct (tryGetService (iface_of fn) w3) as [h2 w4]; cbn [fst snd].
      unfold result, after, events; cbn [fst snd world statics].
      rewrite attempts_app, reconnections_app.
      destruct (init_events_plain _ _ Hi) as (-> & _ & -> & _).
      split; [reflexivity|]; split; [reflexivity|].
      split; [discriminate|]; intros _.
      split; [reflexivity|]; split.
      * unfold get_sHal, set_sHal; rewrite Hs, upd_same, upd_same; reflexivity.
      * split; [reflexivity|].
        exists (init ++ [EvAttempt (desc fn) o1;
                         EvLog ANDROID_LOG_ERROR FailedToIssueCommand;
                         EvTryGetService (iface_of fn) (isSome h1);
                         EvAttempt (desc fn) o2]).
        now rewrite <- app_assoc.
Qed.

(** When the loop is not entered, [halCall] makes no pass and no
    reconnection and returns the null-pointer status. *)
Lemma halCall_not_entered {R : Type} (fn : Call R) (st : St W) :
  loop_entry fn st = None ->
  result (halCall fn st) = NullptrStatus /\
  attempts (events (halCall fn st)) = [] /\
  reconnections (events (halCall fn st)) = O.
Proof.
  unfold loop_entry, halCall, mbind, static_init, mret.
  destruct (statics st (inst_of fn)) as [sl|].
  - destruct (sAvailable sl); [discriminate|]; cbn; auto.
  - destruct (getService (iface_of fn) (world st)) as [h w]; cbn [sAvailable].
    destruct (isSome h); [discriminate|]; cbn; auto.
Qed.

(** C2.  [halCall] makes at most [NUM_TRIES] = 2 passes; no pass follows one
    that completed in transport, whatever status the reply carries; a first
    pass that fails is followed by a second, and between two passes there is
    exactly one [tryGetService]; the value returned is the outcome of the
    last pass.

    The passes and the look-ups are these.  When the loop is not entered
    there is none.  Otherwise the first pass is made on the entry handle.
    If it fails, [tryGetService] is called in the world that pass left, the
    handle it returns is the one the second pass is made on, in the world
    the look-up left, and it is cached.  If the second pass fails too,
    [tryGetService] is called once more, after it, and the handle it returns
    is the one left cached. *)
Theorem halCall_bounded_retry {R : Type} (fn : Call R) (st : St W) :
  let tr := events (halCall fn st) in
  let ret := result (halCall fn st) in
  (length (attempts tr) <= 2)%nat /\
  (forall pre a post,
      attempts tr = pre ++ a :: post -> completed (snd a) = true -> post = []) /\
  (forall a post,
      attempts tr = a :: post -> completed (snd a) = false -> length post = 1%nat) /\
  (forall pre a1 mid a2 post,
      tr = pre ++ a1 :: mid ++ a2 :: post ->
      is_attempt a1 = true -> is_attempt a2 = true ->
      reconnections mid = 1%nat) /\
  (forall pre a,
      attempts tr = pre ++ [a] -> outcome_of fn ret = Some (snd a)) /\
  (loop_entry fn st = None ->
   ret = NullptrStatus /\ attempts tr = [] /\ reconnections tr = O) /\
  (forall h0 w0,
      loop_entry fn st = Some (h0, w0) ->
      let x := halCall fn st in
      let p1 := pass h0 fn w0 in
      (isOk (fst (fst p1)) = true ->
       result x = fst (fst p1) /\
       world (after x) = snd (fst p1) /\
       get_sHal (statics (after x)) (inst_of fn) = h0 /\
       attempts (events x) = [(desc fn, snd p1)] /\
       reconnections (events x) = O) /\
      (isOk (fst (fst p1)) = false ->
       let l1 := tryGetService (iface_of fn) (snd (fst p1)) in
       let p2 := pass (fst l1) fn (snd l1) in
       result x = fst (fst p2) /\
       attempts (events x) = [(desc fn, snd p1); (desc fn, snd p2)] /\
       (isOk (fst (fst p2)) = true ->
        world (after x) = snd (fst p2) /\
        get_sHal (statics (after x)) (inst_of fn) = fst l1 /\
        reconnections (events x) = 1%nat) /\
       (isOk (fst (fst p2)) = false ->
        let l2 := tryGetService (iface_of fn) (snd (fst p2)) in
        world (after x) = snd l2 /\
        get_sHal (statics (after x)) (inst_of fn) = fst l2 /\
        reconnections (events x) = 2%nat /\
        exists pre,
          events x = pre ++ [EvLog ANDROID_LOG_ERROR FailedToIssueCommand;
                             EvTryGetService (iface_of fn)
                               (isSome (fst l2))]))).
Proof.
  intros tr ret; subst tr ret.
  repeat match goal with |- _ /\ _ => split end;
    [ | | | | | apply halCall_not_entered | apply halCall_passes ].
  all: destruct (halCall_run fn st) as (init & body & -> & Hinit & Hrun).
  all: destruct Hinit as [-> | [b ->]]; inversion Hrun; subst; cbn.
  all: try lia.
  all: try (intros pre a post Hs Hc; split_app Hs; cbn in Hc; congruence).
  all: try (intros a post Hs Hc; split_app Hs; cbn in Hc;
            reflexivity || congruence).
  all: try (intros pre a1 mid a2 post Hs Ha1 Ha2; split_app Hs;
            cbn in Ha1, Ha2; try discriminate; reflexivity).
  all: intros pre a Hs; split_app Hs; cbn; auto.
Qed.

(** X2.  [halCall] calls [tryGetService] once for each pass that failed, and
    writes its error line as often: at most twice; it writes no warning.
    When both passes fail the second look-up is the last event of the call,
    made in the world the second pass left, and the handle it returns is
    the one the call leaves cached. *)
Theorem halCall_reconnects_per_failure {R : Type} (fn : Call R) (st : St W) :
  let x := halCall fn st in
  let tr := events x in
  reconnections tr = failed_passes tr /\
  error_diags tr = repeat FailedToIssueCommand (failed_passes tr) /\
  warn_diags tr = [] /\
  (failed_passes tr <= 2)%nat /\
  (forall h0 w0,
      loop_entry fn st = Some (h0, w0) ->
      let p1 := pass h0 fn w0 in
      let l1 := tryGetService (iface_of fn) (snd (fst p1)) in
      let p2 := pass (fst l1) fn (snd l1) in
      let l2 := tryGetService (iface_of fn) (snd (fst p2)) in
      isOk (fst (fst p1)) = false -> isOk (fst (fst p2)) = false ->
      reconnections tr = 2%nat /\
      (exists pre,
          tr = pre ++ [EvLog ANDROID_LOG_ERROR FailedToIssueCommand;
                       EvTryGetService (iface_of fn) (isSome (fst l2))]) /\
      get_sHal (statics (after x)) (inst_of fn) = fst l2 /\
      world (after x) = snd l2).
Proof.
  intros x tr; subst x tr.
  destruct (halCall_log fn st) as (H1 & H2 & H3 & H4).
  repeat match goal with |- _ /\ _ => split end; auto.
  intros h0 w0 He p1 l1 p2 l2 Hk1 Hk2.
  destruct (halCall_passes fn st h0 w0 He) as [_ Hf].
  destruct (Hf Hk1) as (_ & _ & _ & Hx).
  destruct (Hx Hk2) as (Hw & Hh & Hr & Hpre).
  repeat split; auto.
Qed.

(** X4.  The pass after a reconnection is made on the handle the look-up
    returned, in the world the look-up left.  When [tryGetService] returns
    [nullptr] that pass does not call the service and the value is the
    null-pointer status.  When it returns a handle, the pass is the call of
    the member function on that handle, and its answer is the value
    [halCall] returns; a completed call leaves that handle cached. *)
Theorem halCall_retry_uses_new_handle {R : Type} (fn : Call R) (st : St W)
    (h0 : option Handle) (w0 : W) :
  loop_entry fn st = Some (h0, w0) ->
  isOk (fst (fst (pass h0 fn w0))) = false ->
  let x := halCall fn st in
  let p1 := pass h0 fn w0 in
  let l1 := tryGetService (iface_of fn) (snd (fst p1)) in
  match fst l1 with
  | None =>
      result x = NullptrStatus /\
      attempts (events x) = [(desc fn, snd p1); (desc fn, NullHandle)]
  | Some h =>
      match fst (transact R h fn (snd l1)) with
      | Some v =>
          result x = RetVal v /\
          attempts (events x) =
            [(desc fn, snd p1); (desc fn, Replied (reply_desc fn v))] /\
          world (after x) = snd (transact R h fn (snd l1)) /\
          get_sHal (statics (after x)) (inst_of fn) = Some h
      | None =>
          result x = RetStatus EX_TRANSACTION_FAILED /\
          attempts (events x) =
            [(desc fn, snd p1); (desc fn, TransportFailed)]
      end
  end.
Proof.
  intros He Hk1 x p1 l1; subst x p1 l1.
  destruct (halCall_passes fn st h0 w0 He) as [_ Hf].
  destruct (Hf Hk1) as (Hr & Ha & Hok & _); clear Hf.
  remember (pass h0 fn w0) as p1 eqn:Hp1; clear Hp1.
  destruct (tryGetService (iface_of fn) (snd (fst p1)))
    as [h1 w2]; cbn [fst snd] in *.
  destruct h1 as [h|]; [| cbn in Hr, Ha; auto].
  unfold pass in Hok, Hr, Ha.
  destruct (transact R h fn w2) as [[v|] w3]; cbn [fst snd isOk] in *.
  - destruct (Hok eq_refl) as (Hw & Hh & _); auto.
  - auto.
Qed.

End Retry.

(** ** Further properties of the native methods *)

Section NativeMethodsMore.

Context {W : Type} {hal : VibratorHal W}.

(** The value [halCall] returns is [isOk] exactly when a pass completed. *)
Lemma halCall_isOk_replied {R : Type} (fn : Call R) (st : St W) :
  isOk (result (halCall fn st)) = true <->
  exists v, result (halCall fn st) = RetVal v /\
            In (EvAttempt (desc fn) (Replied (reply_desc fn v)))
               (events (halCall fn st)).
Proof.
  split; [| intros (v & -> & _); reflexivity].
  destruct (halCall_run fn st) as (init & body & He & Hi & Hrun).
  rewrite He; intros Hk.
  inversion Hrun as [Hb Hr | v Hb Hr | o1 b v Hc Hb Hr
                    | o1 o2 b1 b2 r' Hc1 Hc2 Ho Hx Hb Hr].
  - rewrite <- Hr in Hk; discriminate Hk.
  - exists v; split; [reflexivity|].
    apply in_or_app; right; now left.
  - exists v; split; [reflexivity|].
    apply in_or_app; right; cbn; auto.
  - rewrite Hx in Hk; discriminate Hk.
Qed.

Lemma vibratorExists_run (st : St W) :
  vibratorExists st =
  (isOk (result (halCall ping st)), after (halCall ping st),
   events (halCall ping st)).
Proof.
  unfold vibratorExists, mbind, mret.
  destruct (halCall ping st) as [[r s1] t]; cbn.
  rewrite app_nil_r; now destruct (isOk r).
Qed.

(** X7.  [vibratorExists] answers [JNI_TRUE] exactly when a [ping] reached
    the service and was answered during the call; a cached handle alone does
    not make it true. *)
Theorem vibratorExists_iff_ping_answered (st : St W) :
  result (vibratorExists st) = true <->
  In (EvAttempt D_ping (Replied R_void)) (events (vibratorExists st)).
Proof.
  rewrite vibratorExists_run; unfold result, events; cbn [fst snd].
  rewrite (halCall_isOk_replied ping st); split.
  - intros (v & _ & Hin); exact Hin.
  - intros Hin; destruct (halCall_replied ping st _ _ Hin) as (v & Hv & _).
    exists v; split; [exact Hv | exact Hin].
Qed.

Lemma vibratorSupportsAmplitudeControl_run (st : St W) :
  vibratorSupportsAmplitudeControl st =
  (Z.b2z (withDefault false (result (halCall supportsAmplitudeControl st))),
   after (halCall supportsAmplitudeControl st),
   events (halCall supportsAmplitudeControl st)).
Proof.
  unfold vibratorSupportsAmplitudeControl, mbind, mret.
  destruct (halCall supportsAmplitudeControl st) as [[r s1] t]; cbn.
  now rewrite app_nil_r.
Qed.

(** X8.  [vibratorSupportsAmplitudeControl] returns 0 or 1, and 1 exactly
    when the service answered the query with true during the call; a query
    answered false and a query that did not get through both give 0. *)
Theorem vibratorSupportsAmplitudeControl_result (st : St W) :
  let x := vibratorSupportsAmplitudeControl st in
  (result x = 0 \/ result x = 1) /\
  (result x = 1 <->
   In (EvAttempt D_supportsAmplitudeControl (Replied (R_bool true))) (events x)).
Proof.
  intros x; subst x.
  rewrite vibratorSupportsAmplitudeControl_run; unfold result, events;
    cbn [fst snd].
  split.
  - destruct (withDefault false _); cbn; auto.
  - split.
    + intros Hr.
      destruct (fst (fst (halCall supportsAmplitudeControl st))) as [v | ex] eqn:Hv;
        cbn in Hr; [| discriminate Hr].
      destruct v; [| discriminate Hr].
      assert (Hk : isOk (result (halCall supportsAmplitudeControl st)) = true)
        by (unfold result; now rewrite Hv).
      apply halCall_isOk_replied in Hk as (v & Hv' & Hin).
      unfold result in Hv'; rewrite Hv in Hv'; inversion Hv'; subst v.
      exact Hin.
    + intros Hin.
      destruct (halCall_replied supportsAmplitudeControl st _ _ Hin)
        as (v & Hv & Hd).
      unfold result in Hv; rewrite Hv; cbn in Hd |- *.
      inversion Hd; reflexivity.
Qed.

Lemma status_report_plain (report : Status -> Diag) (r : Return Status) :
  attempts (status_report report r) = [] /\
  failed_passes (status_report report r) = O /\
  (forall c o, ~ In (EvAttempt c o) (status_report report r)).
Proof.
  unfold status_report, failed_passes.
  destruct (Status_eqb (withDefault UNKNOWN_ERROR r) OK); cbn;
    repeat split; auto; intros c o [E | []]; discriminate.
Qed.

(** The error lines of a call returning a status followed by the report of
    that status. *)
Lemma status_command_reports (fn : Call Status) (report : Status -> Diag)
    (st : St W) :
  (forall v, reply_desc fn v = R_status v) ->
  let tr := events (halCall fn st)
              ++ status_report report (result (halCall fn st)) in
  let retries := repeat FailedToIssueCommand (failed_passes tr) in
  (forall c, In (EvAttempt c (Replied (R_status OK))) tr ->
             error_diags tr = retries) /\
  (forall c s, s <> OK -> In (EvAttempt c (Replied (R_status s))) tr ->
               error_diags tr = retries ++ [report s]) /\
  (Forall (fun a => completed (snd a) = false) (attempts tr) ->
   error_diags tr = retries ++ [report UNKNOWN_ERROR]).
Proof.
  intros Hrd tr retries; subst tr retries.
  destruct (status_report_plain report (result (halCall fn st)))
    as (Ha & Hf & Hn).
  destruct (halCall_log fn st) as (He & _).
  rewrite error_diags_app, failed_passes_app, attempts_app, He, Hf, Ha,
    Nat.add_0_r, app_nil_r.
  assert (Hin : forall c s,
             In (EvAttempt c (Replied (R_status s)))
                (events (halCall fn st)
                   ++ status_report report (result (halCall fn st))) ->
             result (halCall fn st) = RetVal s).
  { intros c s H; apply in_app_or in H as [H | H]; [| now apply Hn in H].
    destruct (halCall_replied fn st _ _ H) as (v & Hv & Hd).
    rewrite Hrd in Hd; inversion Hd; now subst. }
  split; [| split].
  - intros c H; rewrite (Hin c OK H); cbn; now rewrite app_nil_r.
  - intros c s Hne H; rewrite (Hin c s H); unfold status_report; cbn.
    now rewrite (Status_eqb_neq s OK Hne).
  - intros Hall; apply halCall_all_failed in Hall.
    destruct (result (halCall fn st)) as [v | ex]; [discriminate Hall|].
    reflexivity.
Qed.

Lemma vibratorOn_events (timeout_ms : Z) (st : St W) :
  events (vibratorOn timeout_ms st) =
  events (halCall (on (to_uint32 timeout_ms)) st)
    ++ status_report VibratorOnFailed (result (halCall (on (to_uint32 timeout_ms)) st)).
Proof.
  unfold vibratorOn, status_report, mbind, ALOGE, emit, mret.
  destruct (halCall (on (to_uint32 timeout_ms)) st) as [[r s1] t]; cbn.
  now destruct (Status_eqb (withDefault UNKNOWN_ERROR r) OK).
Qed.

Lemma vibratorOff_events (st : St W) :
  events (vibratorOff st) =
  events (halCall off st)
    ++ status_report VibratorOffFailed (result (halCall off st)).
Proof.
  unfold vibratorOff, status_report, mbind, ALOGE, emit, mret.
  destruct (halCall off st) as [[r s1] t]; cbn.
  now destruct (Status_eqb (withDefault UNKNOWN_ERROR r) OK).
Qed.

Lemma vibratorSetAmplitude_events (amplitude : Z) (st : St W) :
  events (vibratorSetAmplitude amplitude st) =
  events (halCall (setAmplitude (to_uint8 (to_uint32 amplitude))) st)
    ++ status_report SetAmplitudeFailed
         (result (halCall (setAmplitude (to_uint8 (to_uint32 amplitude))) st)).
Proof.
  unfold vibratorSetAmplitude, status_report, mbind, ALOGE, emit, mret.
  destruct (halCall (setAmplitude (to_uint8 (to_uint32 amplitude))) st) as [[r s1] t]; cbn.
  now destruct (Status_eqb (withDefault UNKNOWN_ERROR r) OK).
Qed.

(** X9.  The error lines of [vibratorOn] are the dispatcher's retry lines,
    followed by nothing when the service answered [OK], by the
    'vibratorOn command failed' line with the status when it answered
    another status, and by that line with [UNKNOWN_ERROR] when no pass
    completed. *)
Theorem vibratorOn_reports (timeout_ms : Z) (st : St W) :
  let tr := events (vibratorOn timeout_ms st) in
  let retries := repeat FailedToIssueCommand (failed_passes tr) in
  (forall c, In (EvAttempt c (Replied (R_status OK))) tr ->
             error_diags tr = retries) /\
  (forall c s, s <> OK -> In (EvAttempt c (Replied (R_status s))) tr ->
               error_diags tr = retries ++ [VibratorOnFailed s]) /\
  (Forall (fun a => completed (snd a) = false) (attempts tr) ->
   error_diags tr = retries ++ [VibratorOnFailed UNKNOWN_ERROR]).
Proof.
  rewrite vibratorOn_events.
  apply (status_command_reports (on (to_uint32 timeout_ms)) VibratorOnFailed st).
  reflexivity.
Qed.

(** X10.  The same for [vibratorOff], with the 'vibratorOff command failed'
    line. *)
Theorem vibratorOff_reports (st : St W) :
  let tr := events (vibratorOff st) in
  let retries := repeat FailedToIssueCommand (failed_passes tr) in
  (forall c, In (EvAttempt c (Replied (R_status OK))) tr ->
             error_diags tr = retries) /\
  (forall c s, s <> OK -> In (EvAttempt c (Replied (R_status s))) tr ->
               error_diags tr = retries ++ [VibratorOffFailed s]) /\
  (Forall (fun a => completed (snd a) = false) (attempts tr) ->
   error_diags tr = retries ++ [VibratorOffFailed UNKNOWN_ERROR]).
Proof.
  rewrite vibratorOff_events.
  apply (status_command_reports off VibratorOffFailed st).
  reflexivity.
Qed.

(** X11.  The same for [vibratorSetAmplitude], with the 'Failed to set
    vibrator amplitude' line: a level the service rejects and a call that
    did not get through are both reported, and the method returns
    nothing either way. *)
Theorem vibratorSetAmplitude_reports (amplitude : Z) (st : St W) :
  let tr := events (vibratorSetAmplitude amplitude st) in
  let retries := repeat FailedToIssueCommand (failed_passes tr) in
  (forall c, In (EvAttempt c (Replied (R_status OK))) tr ->
             error_diags tr = retries) /\
  (forall c s, s <> OK -> In (EvAttempt c (Replied (R_status s))) tr ->
               error_diags tr = retries ++ [SetAmplitudeFailed s]) /\
  (Forall (fun a => completed (snd a) = false) (attempts tr) ->
   error_diags tr = retries ++ [SetAmplitudeFailed UNKNOWN_ERROR]).
Proof.
  rewrite vibratorSetAmplitude_events.
  apply (status_command_reports (setAmplitude (to_uint8 (to_uint32 amplitude)))
           SetAmplitudeFailed st).
  reflexivity.
Qed.

Lemma verdict_log_no_warning (effect strength : Z) (l : Locals) :
  warn_diags (verdict_log effect strength l) = [] /\
  failed_passes (verdict_log effect strength l) = O.
Proof.
  unfold verdict_log, failed_passes.
  destruct (Status_eqb (l_status l) OK);
    [| destruct (negb (Status_eqb (l_status l) UNSUPPORTED_OPERATION))];
    cbn; auto.
Qed.

(** X12.  A call that completes with a status other than [OK] and
    [UNSUPPORTED_OPERATION]: [vibratorPerformEffect] returns -1 and, after
    the dispatcher's retry lines, writes one error line with the identifier,
    the strength as passed in, and that status. *)
Theorem performEffect_other_status_logged
    (ind : Locals) (effect strength : Z) (st : St W)
    (c : CallDesc) (s : Status) (d : Z) :
  In (EvAttempt c (Replied (R_perform s d)))
     (events (vibratorPerformEffect ind effect strength st)) ->
  s <> OK -> s <> UNSUPPORTED_OPERATION ->
  result (vibratorPerformEffect ind effect strength st) = -1 /\
  error_diags (events (vibratorPerformEffect ind effect strength st)) =
    repeat FailedToIssueCommand
      (failed_passes (events (vibratorPerformEffect ind effect strength st)))
    ++ [HapticEffectFailed effect strength s].
Proof.
  intros Hin H1 H2; destruct (performEffect_reply _ _ _ _ _ _ _ Hin) as (Hr & Hv).
  rewrite (performEffect_in_range ind effect strength st Hr).
  destruct (halCall_log (entry_point effect strength) st) as (He & _).
  unfold result, events in *; cbn [fst snd] in *; rewrite Hv.
  unfold transport_warning, verdict, verdict_log; cbn [isOk negb callback l_status].
  rewrite (Status_eqb_neq s OK H1), (Status_eqb_neq s UNSUPPORTED_OPERATION H2).
  cbn [negb app]; split; [reflexivity|].
  rewrite error_diags_app, failed_passes_app, He; cbn.
  now rewrite Nat.add_0_r.
Qed.

(** X13.  An identifier in range: when no pass completes the function writes
    one warning, 'insufficient HAL version' for [TICK] and 'Failed to
    perform effect' for any other identifier, with the identifier cut to 32
    bits; when a pass completes it writes no warning. *)
Theorem performEffect_transport_warning
    (ind : Locals) (effect strength : Z) (st : St W) :
  0 <= effect <= MAX_KNOWN_EFFECT ->
  let tr := events (vibratorPerformEffect ind effect strength st) in
  (Forall (fun a => completed (snd a) = false) (attempts tr) ->
   warn_diags tr =
   [if effect =? MAX_KNOWN_EFFECT
    then InsufficientHalVersion (to_int32 effect)
    else PerformFailed (to_int32 effect)]) /\
  (forall c d, In (EvAttempt c (Replied d)) tr -> warn_diags tr = []).
Proof.
  intros He tr; subst tr.
  destruct (in_range_test effect He) as (Hr & _).
  rewrite (performEffect_attempts ind effect strength st Hr).
  rewrite (performEffect_in_range ind effect strength st Hr).
  destruct (halCall_log (entry_point effect strength) st) as (_ & _ & Hw & _).
  pose proof (halCall_all_failed (entry_point effect strength) st) as Hfail.
  pose proof (halCall_replied (entry_point effect strength) st) as Hrep.
  destruct (verdict_log_no_warning effect strength
              (callback (result (halCall (entry_point effect strength) st)) ind))
    as (Hv0 & _).
  unfold events in *; cbn [snd] in *.
  rewrite !warn_diags_app, Hw, Hv0, app_nil_r; cbn [app]; split.
  - intros Hall; apply Hfail in Hall.
    unfold transport_warning; rewrite Hall; reflexivity.
  - intros c d Hin.
    apply in_app_or in Hin as [Hin | Hin];
      [| apply in_app_or in Hin as [Hin | Hin];
         [now apply transport_warning_plain in Hin
         | now apply verdict_log_plain in Hin]].
    destruct (Hrep _ _ Hin) as (v & Hv & _).
    unfold transport_warning; rewrite Hv; reflexivity.
Qed.

End NativeMethodsMore.

Section FlagWriteOnce.

Context {W : Type} {hal : VibratorHal W}.

(** X14.  [sAvailable] is written by its initialiser only: once the statics
    of an instantiation exist, a call of any instantiation leaves them in
    existence with the flag as it was, whatever happens to the handle. *)
Theorem halCall_flag_write_once {R : Type} (fn : Call R) (st : St W)
    (j : Inst) (sl : Slot) :
  statics st j = Some sl ->
  exists sl',
    statics (after (halCall fn st)) j = Some sl' /\
    sAvailable sl' = sAvailable sl.
Proof.
  intros Hs; pose proof (halCall_keeps_available fn st j sl Hs) as Hk.
  destruct (statics (after (halCall fn st)) j) as [sl'|];
    [| discriminate Hk].
  exists sl'; split; [reflexivity | now inversion Hk].
Qed.

End FlagWriteOnce.

Section Composition.

Context {W : Type} {hal : VibratorHal W}.

Lemma vibratorOn_attempts (timeout_ms : Z) (st : St W) :
  attempts (events (vibratorOn timeout_ms st)) =
  attempts (events (halCall (on (to_uint32 timeout_ms)) st)).
Proof.
  rewrite vibratorOn_events, attempts_app.
  destruct (status_report_plain VibratorOnFailed
              (result (halCall (on (to_uint32 timeout_ms)) st))) as (-> & _).
  apply app_nil_r.
Qed.

Lemma vibratorInit_run (st : St W) :
  vibratorInit st = (tt, after (halCall ping st), events (halCall ping st)).
Proof.
  unfold vibratorInit, mbind, mret.
  destruct (halCall ping st) as [[r s1] t]; cbn.
  now rewrite app_nil_r.
Qed.

(** X15.  [vibratorExists] and [vibratorOn] go through different
    instantiations.  When the flag of [ping]'s statics is false,
    [vibratorExists] answers [JNI_FALSE] with no event and no change of
    state, and yet [vibratorOn] calls the service in its first pass whenever
    its own statics are live. *)
Theorem vibratorExists_false_does_not_bind_vibratorOn
    (timeout_ms : Z) (st : St W) (sl : Slot) :
  statics st (inst_of ping) = Some sl -> sAvailable sl = false ->
  live (on (to_uint32 timeout_ms)) st = true ->
  vibratorExists st = (false, st, []) /\
  exists o rest,
    attempts (events (vibratorOn timeout_ms st)) =
      (D_on (to_uint32 timeout_ms), o) :: rest /\
    contacted o = true.
Proof.
  intros Hs Ha Hl; split.
  - rewrite vibratorExists_run, (halCall_unavailable ping st sl Hs Ha).
    reflexivity.
  - rewrite vibratorOn_attempts.
    exact (halCall_live (on (to_uint32 timeout_ms)) st Hl).
Qed.

(** X16.  [vibratorInit] initialises the statics of [ping]'s instantiation
    and no other: the statics of every other member function are as before,
    and a [vibratorExists] that follows runs no [getService]. *)
Theorem vibratorInit_warms_ping_only (st : St W) :
  statics (after (vibratorInit st)) (inst_of ping) <> None /\
  (forall (R : Type) (fn : Call R),
      method_of fn <> M_ping ->
      statics (after (vibratorInit st)) (inst_of fn) = statics st (inst_of fn)) /\
  initialisations (events (vibratorExists (after (vibratorInit st)))) = O.
Proof.
  rewrite vibratorInit_run; unfold after at 1 2 4; cbn [fst snd].
  split; [apply halCall_initialised|].
  split.
  - intros R fn Hm; apply halCall_other.
    intros E; apply Hm; now apply (inst_of_method fn ping).
  - rewrite vibratorExists_run; unfold events at 1; cbn [snd].
    pose proof (halCall_initialised ping st) as Hn.
    destruct (statics (after (halCall ping st)) (inst_of ping)) as [sl|] eqn:Hs;
      [| contradiction].
    exact (halCall_no_init ping _ sl Hs).
Qed.

End Composition.

(** *** The further theorems at sample inputs *)


Lemma halCall_initialises_once_witness :
  initialisations (events (halCall ping (boot w_up))) = 1%nat /\
  inst_of ping = inst_of ping /\
  initialisations
    (events (halCall ping (after (halCall ping (boot w_up))))) = O.
Proof.
  pose proof (halCall_initialises_once ping ping (boot w_up)) as [_ H2].
  split; [reflexivity|].
  split; [reflexivity|].
  exact (H2 eq_refl).
Defined.

Lemma halCall_reuses_handle_witness :
  let st1 := after (vibratorInit (boot w_up)) in
  statics st1 (inst_of ping) = Some (mkSlot (Some 1%nat) true) /\
  reconnections (events (halCall ping st1)) = O /\
  statics (after (halCall ping st1)) (inst_of ping) =
    Some (mkSlot (Some 1%nat) true).
Proof.
  intros st1.
  assert (Hs : statics st1 (inst_of ping) = Some (mkSlot (Some 1%nat) true))
    by reflexivity.
  assert (Hr : reconnections (events (halCall ping st1)) = O) by reflexivity.
  split; [exact Hs|].
  split; [exact Hr|].
  pose proof (halCall_reuses_handle ping st1 _ Hs Hr) as [Hf _].
  rewrite Hf; exact Hs.
Defined.

Lemma halCall_recovers_lost_handle_witness :
  let st1 := after (vibratorInit (boot w_outage)) in
  statics st1 (inst_of ping) = Some (mkSlot None true) /\
  fst (tryGetService IVibrator (world st1)) = Some 2%nat /\
  exists o,
    attempts (events (halCall ping st1)) = [(D_ping, NullHandle); (D_ping, o)] /\
    contacted o = true.
Proof.
  intros st1.
  assert (Hs : statics st1 (inst_of ping) = Some (mkSlot None true))
    by reflexivity.
  assert (Hg : fst (tryGetService (iface_of ping) (world st1)) = Some 2%nat)
    by reflexivity.
  split; [exact Hs|].
  split; [exact Hg|].
  pose proof (halCall_recovers_lost_handle ping st1 2%nat Hs Hg)
    as (o & Ha & Hc & _).
  exists o; split; [exact Ha | exact Hc].
Defined.

Lemma vibratorExists_iff_ping_answered_witness :
  In (EvAttempt D_ping (Replied R_void)) (events (vibratorExists (boot w_up))) /\
  result (vibratorExists (boot w_up)) = true.
Proof.
  assert (Hin : In (EvAttempt D_ping (Replied R_void))
                   (events (vibratorExists (boot w_up))))
    by (right; left; reflexivity).
  split; [exact Hin|].
  pose proof (vibratorExists_iff_ping_answered (boot w_up)) as [_ Hb].
  exact (Hb Hin).
Defined.

Lemma vibratorSupportsAmplitudeControl_result_witness :
  let x := vibratorSupportsAmplitudeControl (boot (w_steady (R_bool true))) in
  In (EvAttempt D_supportsAmplitudeControl (Replied (R_bool true))) (events x) /\
  result x = 1.
Proof.
  intros x.
  assert (Hin : In (EvAttempt D_supportsAmplitudeControl (Replied (R_bool true)))
                   (events x))
    by (right; left; reflexivity).
  split; [exact Hin|].
  pose proof (vibratorSupportsAmplitudeControl_result
                (boot (w_steady (R_bool true)))) as [_ [_ Hb]].
  exact (Hb Hin).
Defined.

Lemma vibratorOn_reports_witness :
  let tr := events (vibratorOn 100 (boot (w_steady (R_status UNKNOWN_ERROR)))) in
  UNKNOWN_ERROR <> OK /\
  In (EvAttempt (D_on 100) (Replied (R_status UNKNOWN_ERROR))) tr /\
  error_diags tr = [VibratorOnFailed UNKNOWN_ERROR].
Proof.
  intros tr.
  assert (Hne : UNKNOWN_ERROR <> OK) by discriminate.
  assert (Hin : In (EvAttempt (D_on 100) (Replied (R_status UNKNOWN_ERROR))) tr)
    by (right; left; reflexivity).
  split; [exact Hne|].
  split; [exact Hin|].
  pose proof (vibratorOn_reports 100 (boot (w_steady (R_status UNKNOWN_ERROR))))
    as (_ & H2 & _).
  exact (H2 (D_on 100) UNKNOWN_ERROR Hne Hin).
Defined.

Lemma vibratorOff_reports_witness :
  let tr := events (vibratorOff (boot w_dead)) in
  Forall (fun a => completed (snd a) = false) (attempts tr) /\
  error_diags tr =
    [FailedToIssueCommand; FailedToIssueCommand; VibratorOffFailed UNKNOWN_ERROR].
Proof.
  intros tr.
  assert (Hall : Forall (fun a => completed (snd a) = false) (attempts tr))
    by (repeat constructor).
  split; [exact Hall|].
  pose proof (vibratorOff_reports (boot w_dead)) as (_ & _ & H3).
  exact (H3 Hall).
Defined.

Lemma vibratorSetAmplitude_reports_witness :
  let tr := events (vibratorSetAmplitude 128 (boot (w_steady (R_status OK)))) in
  In (EvAttempt (D_setAmplitude 128) (Replied (R_status OK))) tr /\
  error_diags tr = [].
Proof.
  intros tr.
  assert (Hin : In (EvAttempt (D_setAmplitude 128) (Replied (R_status OK))) tr)
    by (right; left; reflexivity).
  split; [exact Hin|].
  pose proof (vibratorSetAmplitude_reports 128 (boot (w_steady (R_status OK))))
    as (H1 & _ & _).
  exact (H1 (D_setAmplitude 128) Hin).
Defined.

Lemma performEffect_other_status_logged_witness :
  let x := vibratorPerformEffect (mkLocals OK 7) 1 300
             (boot (w_steady (R_perform UNKNOWN_ERROR 0))) in
  In (EvAttempt (D_perform 1 44) (Replied (R_perform UNKNOWN_ERROR 0))) (events x) /\
  result x = -1 /\
  error_diags (events x) = [HapticEffectFailed 1 300 UNKNOWN_ERROR].
Proof.
  intros x.
  assert (Hin : In (EvAttempt (D_perform 1 44)
                      (Replied (R_perform UNKNOWN_ERROR 0))) (events x))
    by (right; left; reflexivity).
  split; [exact Hin|].
  pose proof (performEffect_other_status_logged (mkLocals OK 7) 1 300
                (boot (w_steady (R_perform UNKNOWN_ERROR 0)))
                (D_perform 1 44) UNKNOWN_ERROR 0 Hin) as H.
  assert (H1 : UNKNOWN_ERROR <> OK) by discriminate.
  assert (H2 : UNKNOWN_ERROR <> UNSUPPORTED_OPERATION) by discriminate.
  exact (H H1 H2).
Defined.

Lemma performEffect_transport_warning_witness :
  let tr := events (vibratorPerformEffect (mkLocals UNKNOWN_ERROR 0) 2 1
                      (boot w_dead)) in
  0 <= 2 <= 2 /\
  Forall (fun a => completed (snd a) = false) (attempts tr) /\
  warn_diags tr = [InsufficientHalVersion 2].
Proof.
  intros tr.
  assert (H2 : 0 <= 2 <= MAX_KNOWN_EFFECT) by (vm_compute; split; discriminate).
  assert (Hall : Forall (fun a => completed (snd a) = false) (attempts tr))
    by (repeat constructor).
  split; [exact H2|].
  split; [exact Hall|].
  pose proof (performEffect_transport_warning (mkLocals UNKNOWN_ERROR 0) 2 1
                (boot w_dead) H2) as [Hw _].
  exact (Hw Hall).
Defined.

Lemma halCall_flag_write_once_witness :
  let st1 := after (vibratorInit (boot w_late)) in
  statics st1 (inst_of ping) = Some (mkSlot None false) /\
  exists sl',
    statics (after (halCall (on 100) st1)) (inst_of ping) = Some sl' /\
    sAvailable sl' = false.
Proof.
  intros st1.
  assert (Hs : statics st1 (inst_of ping) = Some (mkSlot None false))
    by reflexivity.
  split; [exact Hs|].
  exact (halCall_flag_write_once (on 100) st1 (inst_of ping) _ Hs).
Defined.

Lemma vibratorExists_false_does_not_bind_vibratorOn_witness :
  let st1 := after (vibratorInit (boot w_late)) in
  statics st1 (inst_of ping) = Some (mkSlot None false) /\
  live (on 100) st1 = true /\
  vibratorExists st1 = (false, st1, []) /\
  exists o rest,
    attempts (events (vibratorOn 100 st1)) = (D_on 100, o) :: rest /\
    contacted o = true.
Proof.
  intros st1.
  assert (Hs : statics st1 (inst_of ping) = Some (mkSlot None false))
    by reflexivity.
  assert (Hl : live (on 100) st1 = true) by reflexivity.
  split; [exact Hs|].
  split; [exact Hl|].
  exact (vibratorExists_false_does_not_bind_vibratorOn 100 st1 _ Hs eq_refl Hl).
Defined.

Lemma vibratorInit_warms_ping_only_witness :
  M_on <> M_ping /\
  statics (after (vibratorInit (boot w_up))) (inst_of (on 100)) = None /\
  initialisations
    (events (vibratorExists (after (vibratorInit (boot w_up))))) = O.
Proof.
  assert (Hm : method_of (on 100) <> M_ping) by discriminate.
  pose proof (vibratorInit_warms_ping_only (boot w_up)) as (_ & H2 & H3).
  split; [exact Hm|].
  split; [exact (H2 _ (on 100) Hm) | exact H3].
Defined.

(** *** The dispatcher in the world with restarts *)

Lemma halCall_bounded_retry_witness :
  let fn := perform_1_1 2 1 in
  let d := R_perform UNSUPPORTED_OPERATION 0 in
  let st := boot (w_restart d) in
  let w0 := mkRestarts [Some 2%nat; Some 3%nat] (Some 1%nat) [None; Some d] in
  let lost := EvAttempt (D_perform_1_1 2 1) TransportFailed in
  let answered := EvAttempt (D_perform_1_1 2 1) (Replied d) in
  let mid := [EvLog ANDROID_LOG_ERROR FailedToIssueCommand;
              EvTryGetService IVibrator_1_1 true] in
  events (halCall fn st) =
    [EvGetService IVibrator_1_1 true] ++ lost :: mid ++ answered :: [] /\
  reconnections mid = 1%nat /\
  loop_entry fn st = Some (Some 1%nat, w0) /\
  isOk (fst (fst (pass (Some 1%nat) fn w0))) = false /\
  fst (tryGetService IVibrator_1_1 (snd (fst (pass (Some 1%nat) fn w0)))) =
    Some 2%nat /\
  result (halCall fn st) = RetVal (UNSUPPORTED_OPERATION, 0) /\
  get_sHal (statics (after (halCall fn st))) (inst_of fn) = Some 2%nat /\
  reconnections (events (halCall fn st)) = 1%nat.
Proof.
  intros fn d st w0 lost answered mid.
  pose proof (halCall_bounded_retry fn st) as (_ & _ & _ & H4 & _ & _ & H7).
  assert (He : loop_entry fn st = Some (Some 1%nat, w0)) by reflexivity.
  assert (Hk : isOk (fst (fst (pass (Some 1%nat) fn w0))) = false)
    by reflexivity.
  pose proof (H7 (Some 1%nat) w0 He) as [_ Hf].
  pose proof (Hf Hk) as (Hr & _ & Hok & _).
  pose proof (Hok eq_refl) as (_ & Hh & Hrec).
  split; [reflexivity|].
  split; [apply (H4 [EvGetService IVibrator_1_1 true] lost mid answered []);
          reflexivity|].
  split; [exact He|].
  split; [exact Hk|].
  split; [reflexivity|].
  split; [exact Hr|].
  split; [exact Hh | exact Hrec].
Defined.

Lemma halCall_reconnects_per_failure_witness :
  let fn := perform 1 1 in
  let st := boot w_restarting in
  let w0 := mkRestarts [Some 2%nat; Some 3%nat] (Some 1%nat) [None; None] in
  loop_entry fn st = Some (Some 1%nat, w0) /\
  map snd (attempts (events (halCall fn st))) =
    [TransportFailed; TransportFailed] /\
  reconnections (events (halCall fn st)) = 2%nat /\
  get_sHal (statics (after (halCall fn st))) (inst_of fn) = Some 3%nat /\
  r_live (world (after (halCall fn st))) = Some 3%nat.
Proof.
  intros fn st w0.
  pose proof (halCall_reconnects_per_failure fn st) as (_ & _ & _ & _ & H5).
  assert (He : loop_entry fn st = Some (Some 1%nat, w0)) by reflexivity.
  pose proof (H5 (Some 1%nat) w0 He eq_refl eq_refl) as (Hr & _ & Hh & Hw).
  split; [exact He|].
  split; [reflexivity|].
  split; [exact Hr|].
  split; [exact Hh|].
  rewrite Hw; reflexivity.
Defined.

Lemma halCall_retry_uses_new_handle_witness :
  let st := boot (w_restart R_void) in
  let w0 := mkRestarts [Some 2%nat; Some 3%nat] (Some 1%nat)
              [None; Some R_void] in
  loop_entry ping st = Some (Some 1%nat, w0) /\
  isOk (fst (fst (pass (Some 1%nat) ping w0))) = false /\
  fst (tryGetService IVibrator (snd (fst (pass (Some 1%nat) ping w0)))) =
    Some 2%nat /\
  result (halCall ping st) = RetVal tt /\
  attempts (events (halCall ping st)) =
    [(D_ping, TransportFailed); (D_ping, Replied R_void)] /\
  r_wire (world (after (halCall ping st))) = [] /\
  get_sHal (statics (after (halCall ping st))) (inst_of ping) = Some 2%nat.
Proof.
  intros st w0.
  assert (He : loop_entry ping st = Some (Some 1%nat, w0)) by reflexivity.
  assert (Hk : isOk (fst (fst (pass (Some 1%nat) ping w0))) = false)
    by reflexivity.
  pose proof (halCall_retry_uses_new_handle ping st (Some 1%nat) w0 He Hk)
    as (Hr & Ha & Hw & Hh).
  split; [exact He|].
  split; [exact Hk|].
  split; [reflexivity|].
  split; [exact Hr|].
  split; [exact Ha|].
  split; [rewrite Hw; reflexivity | exact Hh].
Defined.
